(** * useHlsPlayer: the HLS playback hook of KVideo

    A shallow embedding of [src/components/player/hooks/useHlsPlayer.ts].

    The hook is one React effect.  Its body (called [setup] below) tears
    down the engine left in [hlsRef], asks the browser what it can play,
    and either builds an hls.js engine with three event handlers or hands
    the URL to the video element.  The effect returns a cleanup function.

    Everything the hook does to its collaborators (the video element, the
    hls.js engine, the two callbacks of the props, the console) is recorded
    as a list of [Action]s, in program order.  The mutable state of the hook
    ([hlsRef.current], the variables captured by the handlers, the cleanup
    function kept by React, the promises returned by [video.play()]) is the
    record [World].  Objects are told apart by a numeric identity. *)

From Stdlib Require Import QArith Ascii String.
From stdpp Require Import base option list gmap strings pretty.

Open Scope string_scope.
Open Scope list_scope.
Open Scope nat_scope.

(** ** The JavaScript string operations the hook uses *)

Module JS.

(** [String.prototype.toLowerCase], on the bytes of the UTF-8 encoding:
    the letters A-Z are mapped to a-z, every other byte is kept.  The
    handlers only ever look for the ASCII needles 'hev' and 'h265' in the
    result, and no character outside ASCII lower-cases to one of the
    letters of these needles, so the scan sees what JavaScript sees. *)
Definition toLowerCase_char (a : ascii) : ascii :=
  let n := nat_of_ascii a in
  if (65 <=? n) && (n <=? 90) then ascii_of_nat (n + 32) else a.

Fixpoint toLowerCase (s : string) : string :=
  match s with
  | EmptyString => EmptyString
  | String a s' => String (toLowerCase_char a) (toLowerCase s')
  end.

(** [s.includes(needle)]: [needle] occurs in [s] as a substring. *)
Fixpoint includes (s needle : string) : bool :=
  String.prefix needle s ||
  match s with
  | EmptyString => false
  | String _ s' => includes s' needle
  end.

(** Truthiness of a string: every string but the empty one. *)
Definition truthy (s : string) : bool := negb (String.eqb s EmptyString).

(** [a || b] on strings. *)
Definition or_else (a b : string) : string := if truthy a then a else b.

End JS.

(** ** Data *)

(** [React.RefObject<HTMLVideoElement | null>]: the identity of the ref
    object and the element it holds when the effect runs. *)
Record RefObject := {
  ref_id : nat;
  current : option nat
}.

(** [UseHlsPlayerProps].  A callback is the identity of a function, or
    [None] when the caller left it out; [autoPlay] already carries its
    default [false]. *)
Record UseHlsPlayerProps := {
  videoRef : RefObject;
  src : string;
  autoPlay : bool;
  onAutoPlayPrevented : option nat;
  onError : option nat
}.

(** What the browser answers during one run of the effect:
    [Hls.isSupported()] and
    [video.canPlayType('application/vnd.apple.mpegurl')], which is one of
    the strings '', 'maybe' and 'probably'. *)
Record Env := {
  Hls_isSupported : bool;
  canPlayType : string
}.

(** A quality level of the parsed manifest; [videoCodec] may be undefined. *)
Record Level := {
  videoCodec : option string
}.

(** [Hls.ErrorTypes]. *)
Inductive ErrorTypes :=
| NETWORK_ERROR
| MEDIA_ERROR
| KEY_SYSTEM_ERROR
| MUX_ERROR
| OTHER_ERROR.

(** The data of an [Hls.Events.ERROR] event. *)
Record ErrorData := {
  fatal : bool;
  type : ErrorTypes;
  details : string
}.

(** The three events the hook subscribes to, with what the handlers read:
    [data.frag.start], [hls.levels], and the error data. *)
Inductive EngineEvent :=
| EvFragLoaded (frag_start : Q)
| EvManifestParsed (levels : list Level)
| EvError (data : ErrorData).

Inductive HlsEvents := FRAG_LOADED | MANIFEST_PARSED | ERROR.

(** The two rejection handlers the hook attaches to [video.play()]:
    [.catch(console.warn)] in the fragment handler, and the arrow function
    that reports to [onAutoPlayPrevented] in the manifest handler. *)
Inductive CatchHandler := CatchConsoleWarn | CatchAutoplay.

Inductive ConsoleLevel := Warn | Error.

(** One call of the hook on a collaborator.  Console calls keep their first
    argument; the objects logged after it are never read back. *)
Inductive Action :=
| VideoCanPlayType (video : nat) (mime : string)
| HlsIsSupported
| NewHls (hls : nat)
| HlsLoadSource (hls : nat) (url : string)
| HlsAttachMedia (hls video : nat)
| HlsOn (hls : nat) (ev : HlsEvents)
| HlsStartLoad (hls : nat)
| HlsRecoverMediaError (hls : nat)
| HlsDestroy (hls : nat)
| VideoSetSrc (video : nat) (url : string)
| VideoPlay (video : nat) (k : CatchHandler)
| CallOnError (f : nat) (message : string)
| CallOnAutoPlayPrevented (f : nat) (err : string)
| Console (lvl : ConsoleLevel) (message : string).

(** The variables one run of the effect leaves to its three handlers: the
    props of that render, [video], [hls] (assigned once, by [new Hls], and
    never again, so [hls?.] and [if (hls)] always find the engine), and the
    two counters declared next to the error handler.  The counters are
    JavaScript numbers that only ever go up by one from zero; they are
    natural numbers here. *)
Record Closure := {
  props : UseHlsPlayerProps;
  video : nat;
  hls : nat;
  networkErrorRetries : nat;
  mediaErrorRetries : nat
}.

Definition MAX_RETRIES : nat := 3.

(** ** The handlers *)

(** [onError?.(message)] *)
Definition call_onError (p : UseHlsPlayerProps) (message : string) : list Action :=
  match onError p with
  | Some f => [CallOnError f message]
  | None => []
  end.

(** [onAutoPlayPrevented?.(err)] *)
Definition call_onAutoPlayPrevented (p : UseHlsPlayerProps) (err : string) : list Action :=
  match onAutoPlayPrevented p with
  | Some f => [CallOnAutoPlayPrevented f err]
  | None => []
  end.

(** The handler of [Hls.Events.FRAG_LOADED]; [paused] is [video.paused]. *)
Definition on_FRAG_LOADED (c : Closure) (paused : bool) (frag_start : Q) : list Action :=
  if autoPlay (props c) && paused && Qeq_bool frag_start 0
  then [VideoPlay (video c) CatchConsoleWarn]
  else [].

(** [level.videoCodec?.toLowerCase().includes(needle)], undefined counting
    as false. *)
Definition codec_includes (l : Level) (needle : string) : bool :=
  match videoCodec l with
  | Some codec => JS.includes (JS.toLowerCase codec) needle
  | None => false
  end.

(** [levels.some(level => ...'hev' || ...'h265')] *)
Definition hasHEVC (levels : list Level) : bool :=
  existsb (fun level => codec_includes level "hev" || codec_includes level "h265") levels.

Definition hevc_message : string := "检测到 HEVC/H.265 编码，当前浏览器可能不支持".

(** The handler of [Hls.Events.MANIFEST_PARSED]. *)
Definition on_MANIFEST_PARSED (c : Closure) (levels : list Level) : list Action :=
  (if 0 <? length levels then
     if hasHEVC levels then
       [Console Warn "[HLS] ⚠️ HEVC/H.265 codec detected - may not play in all browsers";
        Console Warn "[HLS] Supported: Safari with hardware acceleration, some Edge versions";
        Console Warn "[HLS] Not supported: Most Chrome/Firefox versions"]
       ++ call_onError (props c) hevc_message
     else []
   else [])
  ++
  (if autoPlay (props c) then [VideoPlay (video c) CatchAutoplay] else []).

Definition network_message : string := "网络错误：无法加载视频流".
Definition media_message : string := "媒体错误：视频格式不支持或已损坏".
Definition fatal_message (d : string) : string :=
  "致命错误：" +:+ JS.or_else d "未知错误".

Definition retry_log (what : string) (n : nat) : string :=
  "[HLS] " +:+ what +:+ " error (" +:+ pretty n +:+ "/" +:+ pretty MAX_RETRIES
  +:+ "), trying to recover...".

Arguments retry_log : simpl never.

Definition set_networkErrorRetries (c : Closure) (n : nat) : Closure :=
  {| props := props c; video := video c; hls := hls c;
     networkErrorRetries := n; mediaErrorRetries := mediaErrorRetries c |}.

Definition set_mediaErrorRetries (c : Closure) (n : nat) : Closure :=
  {| props := props c; video := video c; hls := hls c;
     networkErrorRetries := networkErrorRetries c; mediaErrorRetries := n |}.

(** The handler of [Hls.Events.ERROR]. *)
Definition on_ERROR (c : Closure) (data : ErrorData) : Closure * list Action :=
  if fatal data then
    match type data with
    | NETWORK_ERROR =>
        let n := S (networkErrorRetries c) in
        (set_networkErrorRetries c n,
         Console Error (retry_log "Network" n) ::
         if n <=? MAX_RETRIES then
           [HlsStartLoad (hls c)]
         else
           Console Error "[HLS] Too many network errors, giving up"
           :: call_onError (props c) network_message
           ++ [HlsDestroy (hls c)])
    | MEDIA_ERROR =>
        let n := S (mediaErrorRetries c) in
        (set_mediaErrorRetries c n,
         Console Error (retry_log "Media" n) ::
         if n <=? MAX_RETRIES then
           [HlsRecoverMediaError (hls c)]
         else
           Console Error "[HLS] Too many media errors, giving up"
           :: call_onError (props c) media_message
           ++ [HlsDestroy (hls c)])
    | _ =>
        (c,
         Console Error "[HLS] Fatal error, cannot recover:"
         :: call_onError (props c) (fatal_message (details data))
         ++ [HlsDestroy (hls c)])
    end
  else
    (c, [Console Warn "[HLS] Non-fatal error:"]).

(** One event reaching the handlers of a closure.  The handlers contain no
    test of whether their engine is still the bound one, or still alive. *)
Definition handle (c : Closure) (paused : bool) (ev : EngineEvent) : Closure * list Action :=
  match ev with
  | EvFragLoaded frag_start => (c, on_FRAG_LOADED c paused frag_start)
  | EvManifestParsed levels => (c, on_MANIFEST_PARSED c levels)
  | EvError data => on_ERROR c data
  end.

(** The rejection handlers of [video.play()]. *)
Definition on_play_rejected (c : Closure) (k : CatchHandler) (err : string) : list Action :=
  match k with
  | CatchConsoleWarn => [Console Warn err]
  | CatchAutoplay =>
      Console Warn "[HLS] Autoplay prevented:"
      :: call_onAutoPlayPrevented (props c) err
  end.

(** ** The effect *)

(** The state the hook keeps between events.
    - [hlsRef]: the value of [hlsRef.current];
    - [fresh]: the identity the next [new Hls] gets;
    - [closures]: the handler closures, under the identity of their engine;
    - [cleanup]: the function returned by the last run of the effect and
      kept by React: [None] when that run returned nothing (the early
      return), [Some o] when it returned the arrow function whose captured
      [hls] is [o];
    - [pending]: the promises of [video.play()] not settled yet, oldest
      first, each with the engine of the calling closure and its rejection
      handler. *)
Record World := {
  hlsRef : option nat;
  fresh : nat;
  closures : gmap nat Closure;
  cleanup : option (option nat);
  pending : list (nat * CatchHandler)
}.

Definition init : World :=
  {| hlsRef := None; fresh := 0; closures := ∅; cleanup := None; pending := [] |}.

Definition mime_hls : string := "application/vnd.apple.mpegurl".
Definition unsupported_message : string := "当前浏览器不支持 HLS 视频播放".

(** The body of the effect, up to the function it returns. *)
Definition setup (w : World) (p : UseHlsPlayerProps) (env : Env) : World * list Action :=
  match current (videoRef p) with
  | None =>
      ({| hlsRef := hlsRef w; fresh := fresh w; closures := closures w;
          cleanup := None; pending := pending w |}, [])
  | Some video =>
      if negb (JS.truthy (src p)) then
        ({| hlsRef := hlsRef w; fresh := fresh w; closures := closures w;
            cleanup := None; pending := pending w |}, [])
      else
        (* Cleanup previous HLS instance *)
        let previous :=
          match hlsRef w with
          | Some old => [HlsDestroy old]
          | None => []
          end in
        let isNativeHlsSupported := JS.truthy (canPlayType env) in
        let queries := [VideoCanPlayType video mime_hls; HlsIsSupported] in
        if Hls_isSupported env then
          if negb isNativeHlsSupported then
            let hls := fresh w in
            let c := {| props := p; video := video; hls := hls;
                        networkErrorRetries := 0; mediaErrorRetries := 0 |} in
            ({| hlsRef := Some hls; fresh := S (fresh w);
                closures := <[hls := c]> (closures w);
                cleanup := Some (Some hls); pending := pending w |},
             previous ++ queries ++
             [NewHls hls; HlsLoadSource hls (src p); HlsAttachMedia hls video;
              HlsOn hls FRAG_LOADED; HlsOn hls MANIFEST_PARSED; HlsOn hls ERROR])
          else
            ({| hlsRef := None; fresh := fresh w; closures := closures w;
                cleanup := Some None; pending := pending w |},
             previous ++ queries ++ [VideoSetSrc video (src p)])
        else if isNativeHlsSupported then
          ({| hlsRef := None; fresh := fresh w; closures := closures w;
              cleanup := Some None; pending := pending w |},
           previous ++ queries ++ [VideoSetSrc video (src p)])
        else
          ({| hlsRef := None; fresh := fresh w; closures := closures w;
              cleanup := Some None; pending := pending w |},
           previous ++ queries ++
           Console Error "[HLS] HLS not supported in this browser"
           :: call_onError p unsupported_message)
  end.

(** React calls the function the last run returned, if it returned one:
    [() => { if (hls) hls.destroy() }]. *)
Definition run_cleanup (w : World) : World * list Action :=
  ({| hlsRef := hlsRef w; fresh := fresh w; closures := closures w;
      cleanup := None; pending := pending w |},
   match cleanup w with
   | Some (Some hls) => [HlsDestroy hls]
   | _ => []
   end).

(** React runs the effect again (a dependency changed, or the component is
    mounted): first the cleanup of the previous run, then the body. *)
Definition run_effect (w : World) (p : UseHlsPlayerProps) (env : Env) : World * list Action :=
  let '(w1, a1) := run_cleanup w in
  let '(w2, a2) := setup w1 p env in
  (w2, a1 ++ a2).

(** The promises created by the [video.play()] calls of a handler run. *)
Definition plays (hls : nat) (acts : list Action) : list (nat * CatchHandler) :=
  omap (fun a => match a with VideoPlay _ k => Some (hls, k) | _ => None end) acts.

(** Engine [hls] calls the handler registered for [ev]. *)
Definition emit (w : World) (hls : nat) (paused : bool) (ev : EngineEvent) : World * list Action :=
  match closures w !! hls with
  | None => (w, [])
  | Some c =>
      let '(c', acts) := handle c paused ev in
      ({| hlsRef := hlsRef w; fresh := fresh w;
          closures := <[hls := c']> (closures w);
          cleanup := cleanup w;
          pending := pending w ++ plays hls acts |}, acts)
  end.

(** The [i]-th pending promise of [video.play()] settles: fulfilled
    ([None]) or rejected with a cause. *)
Definition settle (w : World) (i : nat) (outcome : option string) : World * list Action :=
  match pending w !! i with
  | None => (w, [])
  | Some (hls, k) =>
      ({| hlsRef := hlsRef w; fresh := fresh w; closures := closures w;
          cleanup := cleanup w; pending := delete i (pending w) |},
       match outcome, closures w !! hls with
       | Some err, Some c => on_play_rejected c k err
       | _, _ => []
       end)
  end.

(** What can happen to the hook.  React runs the effect ([RunEffect]) or
    only its cleanup ([Unmount]); an engine calls the handler it was given
    for an event ([Emit]); a promise of [video.play()] settles ([Settle]).
    hls.js and the browser are outside the source: any engine that was
    given handlers may call them, whether or not it has been destroyed
    since, because nothing in the handlers would stop it. *)
Inductive Input :=
| RunEffect (p : UseHlsPlayerProps) (env : Env)
| Unmount
| Emit (hls : nat) (paused : bool) (ev : EngineEvent)
| Settle (i : nat) (outcome : option string).

Definition step (w : World) (i : Input) : World * list Action :=
  match i with
  | RunEffect p env => run_effect w p env
  | Unmount => run_cleanup w
  | Emit hls paused ev => emit w hls paused ev
  | Settle i outcome => settle w i outcome
  end.

Fixpoint run (w : World) (ins : list Input) : World * list Action :=
  match ins with
  | [] => (w, [])
  | i :: ins' =>
      let '(w1, a1) := step w i in
      let '(w2, a2) := run w1 ins' in
      (w2, a1 ++ a2)
  end.

(** ** Reading a trace *)

(** The engines built and not destroyed, after each action. *)
Definition live_step (L : gset nat) (a : Action) : gset nat :=
  match a with
  | NewHls h => L ∪ {[h]}
  | HlsDestroy h => L ∖ {[h]}
  | _ => L
  end.

Definition live_after (L : gset nat) (tr : list Action) : gset nat :=
  foldl live_step L tr.

(** The actions by which the effect evaluates what the browser can play,
    and the construction of an engine. *)
Definition starts_binding (a : Action) : bool :=
  match a with
  | VideoCanPlayType _ _ | HlsIsSupported | NewHls _ => true
  | _ => false
  end.

(** Along a trace started with the engines [L] alive: never two engines
    alive, and none alive when capability is evaluated or an engine built. *)
Fixpoint teardown_first (L : gset nat) (tr : list Action) : Prop :=
  size L ≤ 1 ∧
  match tr with
  | [] => True
  | a :: tr' =>
      (starts_binding a = true → L = ∅) ∧ teardown_first (live_step L a) tr'
  end.

(** The engine an action is called on, if any. *)
Definition engine_of (a : Action) : option nat :=
  match a with
  | NewHls h | HlsLoadSource h _ | HlsAttachMedia h _ | HlsOn h _
  | HlsStartLoad h | HlsRecoverMediaError h | HlsDestroy h => Some h
  | _ => None
  end.

Definition is_play (a : Action) : bool :=
  match a with VideoPlay _ _ => true | _ => false end.

Definition is_onError (a : Action) : bool :=
  match a with CallOnError _ _ => true | _ => false end.

Definition is_startLoad (a : Action) : bool :=
  match a with HlsStartLoad _ => true | _ => false end.

Definition is_new (a : Action) : bool :=
  match a with NewHls _ => true | _ => false end.

Definition is_setSrc (a : Action) : bool :=
  match a with VideoSetSrc _ _ => true | _ => false end.

(** The fatal faults of one category among the inputs sent to [h]. *)
Definition is_fatal_of (t : ErrorTypes) (h : nat) (i : Input) : bool :=
  match i with
  | Emit h' _ (EvError d) =>
      bool_decide (h' = h) && fatal d &&
      match t, type d with
      | NETWORK_ERROR, NETWORK_ERROR | MEDIA_ERROR, MEDIA_ERROR => true
      | _, _ => false
      end
  | _ => false
  end.


(** ** Derived notions used in the statements *)

(** Every closure sits under the identity of its own engine, and the
    identities in use are below [fresh]. *)
Definition wf (w : World) : Prop :=
  ∀ h c, closures w !! h = Some c → hls c = h ∧ h < fresh w.

(** A fatal network fault with the given detail code. *)
Definition network_fault_of (d : string) : ErrorData :=
  {| fatal := true; type := NETWORK_ERROR; details := d |}.

(** [if (hlsRef.current) { hlsRef.current.destroy(); ... }] *)
Definition destroy_previous (w : World) : list Action :=
  match hlsRef w with
  | Some old => [HlsDestroy old]
  | None => []
  end.

(** The engine the kept cleanup function will destroy. *)
Definition cleanup_target (w : World) : gset nat :=
  match cleanup w with
  | Some (Some h) => {[h]}
  | _ => ∅
  end.

(** ** Notions for the further properties *)

(** The two categories of fault the error handler retries. *)
Inductive Category := Network | Media.

Definition category_type (k : Category) : ErrorTypes :=
  match k with
  | Network => NETWORK_ERROR
  | Media => MEDIA_ERROR
  end.

(** The counter of a category, and the engine method that retries it:
    [startLoad] for network faults, [recoverMediaError] for media faults. *)
Definition counter (k : Category) (c : Closure) : nat :=
  match k with
  | Network => networkErrorRetries c
  | Media => mediaErrorRetries c
  end.

Definition is_recovery (k : Category) (h : nat) (a : Action) : bool :=
  match k, a with
  | Network, HlsStartLoad h' => bool_decide (h' = h)
  | Media, HlsRecoverMediaError h' => bool_decide (h' = h)
  | _, _ => false
  end.

Definition is_any_recovery (a : Action) : bool :=
  match a with
  | HlsStartLoad _ | HlsRecoverMediaError _ => true
  | _ => false
  end.

Definition is_destroy (a : Action) : bool :=
  match a with HlsDestroy _ => true | _ => false end.

(** Any call on an engine, whatever the method. *)
Definition is_engine_call (a : Action) : bool :=
  match engine_of a with
  | Some _ => true
  | None => false
  end.

Definition is_onAutoPlayPrevented (a : Action) : bool :=
  match a with CallOnAutoPlayPrevented _ _ => true | _ => false end.

Definition is_console (a : Action) : bool :=
  match a with Console _ _ => true | _ => false end.

(** How many actions of a trace pass a test. *)
Definition calls (f : Action → bool) (tr : list Action) : nat :=
  length (List.filter f tr).

(** The counter of a category as the engine under [h] has it, capped at
    the ceiling; zero for an engine without handlers. *)
Definition spent (k : Category) (w : World) (h : nat) : nat :=
  match closures w !! h with
  | Some c => counter k c `min` MAX_RETRIES
  | None => 0
  end.

(** The worlds in which no closure has autoplay set and no play request is
    pending. *)
Definition quiet_world (w : World) : Prop :=
  (∀ h c, closures w !! h = Some c → autoPlay (props c) = false)
  ∧ pending w = [].

(** A fatal media fault with the given detail code. *)
Definition media_fault_of (d : string) : ErrorData :=
  {| fatal := true; type := MEDIA_ERROR; details := d |}.

Definition is_manifest (i : Input) : bool :=
  match i with
  | Emit _ _ (EvManifestParsed _) => true
  | _ => false
  end.

(** The pending play requests whose rejection is reported to
    [onAutoPlayPrevented]. *)
Definition reports (q : nat * CatchHandler) : bool :=
  match q.2 with
  | CatchAutoplay => true
  | CatchConsoleWarn => false
  end.

(** The messages the hook ever passes to [onError]. *)
Definition known_message (m : string) : Prop :=
  m = hevc_message ∨ m = network_message ∨ m = media_message ∨
  m = unsupported_message ∨ ∃ d, m = fatal_message d.

(** How many of the pending play requests report their rejection. *)
Definition reporting (l : list (nat * CatchHandler)) : nat :=
  length (List.filter reports l).

(** A callback call is in order, for a set [P] of props: [onError] gets a
    known message and is a callback of some props in [P];
    [onAutoPlayPrevented] is a callback of some props in [P]. *)
Definition call_in_order (P : UseHlsPlayerProps → Prop) (a : Action) : Prop :=
  match a with
  | CallOnError f m =>
      known_message m ∧ ∃ p, P p ∧ onError p = Some f
  | CallOnAutoPlayPrevented f _ =>
      ∃ p, P p ∧ onAutoPlayPrevented p = Some f
  | _ => True
  end.



(** ** Example values *)

Module Examples.

Definition ref7 : RefObject := {| ref_id := 0; current := Some 7 |}.

Definition props_a : UseHlsPlayerProps :=
  {| videoRef := ref7; src := "a.m3u8"; autoPlay := true;
     onAutoPlayPrevented := Some 1; onError := Some 2 |}.

Definition props_b : UseHlsPlayerProps :=
  {| videoRef := ref7; src := "b.m3u8"; autoPlay := true;
     onAutoPlayPrevented := Some 1; onError := Some 2 |}.

Definition props_manual : UseHlsPlayerProps :=
  {| videoRef := ref7; src := "a.m3u8"; autoPlay := false;
     onAutoPlayPrevented := Some 1; onError := Some 2 |}.

(** The source has been cleared. *)
Definition props_cleared : UseHlsPlayerProps :=
  {| videoRef := ref7; src := EmptyString; autoPlay := true;
     onAutoPlayPrevented := Some 1; onError := Some 2 |}.

(** Desktop Chrome: hls.js runs, no native HLS. *)
Definition chrome : Env := {| Hls_isSupported := true; canPlayType := EmptyString |}.
(** Desktop Safari: hls.js runs and the element plays HLS itself. *)
Definition safari : Env := {| Hls_isSupported := true; canPlayType := "maybe" |}.
(** iOS without Media Source Extensions. *)
Definition ios : Env := {| Hls_isSupported := false; canPlayType := "probably" |}.
Definition neither : Env := {| Hls_isSupported := false; canPlayType := EmptyString |}.

Definition closure_a : Closure :=
  {| props := props_a; video := 7; hls := 0;
     networkErrorRetries := 0; mediaErrorRetries := 0 |}.

Definition network_fault : ErrorData :=
  {| fatal := true; type := NETWORK_ERROR; details := "fragLoadError" |}.


Definition hvc1_level : Level := {| videoCodec := Some "hvc1.1.6.L93.B0" |}.



End Examples.

(** * Properties *)

(** ** Basic facts about the handlers *)

Lemma on_ERROR_fields (c : Closure) (d : ErrorData) :
  props (on_ERROR c d).1 = props c ∧
  video (on_ERROR c d).1 = video c ∧
  hls (on_ERROR c d).1 = hls c.
Proof.
  unfold on_ERROR. destruct (fatal d); [destruct (type d)|]; done.
Qed.

Lemma handle_fields (c : Closure) (paused : bool) (ev : EngineEvent) :
  props (handle c paused ev).1 = props c ∧
  video (handle c paused ev).1 = video c ∧
  hls (handle c paused ev).1 = hls c.
Proof.
  destruct ev; simpl; try done. apply on_ERROR_fields.
Qed.

(** The counters after one event: each moves by one on a fatal fault of
    its own category and stays put otherwise. *)
Lemma handle_counters (c : Closure) (paused : bool) (ev : EngineEvent) :
  networkErrorRetries (handle c paused ev).1 =
    networkErrorRetries c +
    (if is_fatal_of NETWORK_ERROR (hls c) (Emit (hls c) paused ev) then 1 else 0)
  ∧
  mediaErrorRetries (handle c paused ev).1 =
    mediaErrorRetries c +
    (if is_fatal_of MEDIA_ERROR (hls c) (Emit (hls c) paused ev) then 1 else 0).
Proof.
  destruct ev as [s|l|d]; simpl; try (split; lia).
  rewrite bool_decide_eq_true_2 by done. unfold on_ERROR.
  destruct (fatal d); [destruct (type d)|]; simpl; split; lia.
Qed.

(** A handler calls no engine but its own. *)
Lemma handle_engine_of (c : Closure) (paused : bool) (ev : EngineEvent) :
  Forall (fun a => ∀ h, engine_of a = Some h → h = hls c) (handle c paused ev).2.
Proof.
  destruct ev as [s|l|d]; simpl;
    unfold on_FRAG_LOADED, on_MANIFEST_PARSED, on_ERROR, call_onError;
    repeat case_match; simpl; repeat constructor; simpl; congruence.
Qed.

(** ** Well-formed worlds *)

Lemma wf_init : wf init.
Proof. intros h c H. simpl in H. by rewrite lookup_empty in H. Qed.

(** What a run of the body does to the closures: nothing, or one new
    closure with both counters at zero under a fresh identity. *)
Lemma setup_closures (w : World) (p : UseHlsPlayerProps) (env : Env) :
  (closures (setup w p env).1 = closures w ∧ fresh (setup w p env).1 = fresh w)
  ∨
  (∃ v, closures (setup w p env).1 =
          <[fresh w := {| props := p; video := v; hls := fresh w;
                          networkErrorRetries := 0; mediaErrorRetries := 0 |}]>
            (closures w)
        ∧ fresh (setup w p env).1 = S (fresh w)).
Proof.
  unfold setup.
  destruct (current (videoRef p)) as [v|]; [|by left].
  destruct (JS.truthy (src p)); [|by left]. simpl.
  destruct (Hls_isSupported env), (JS.truthy (canPlayType env)); simpl;
    try (by left).
  right. by exists v.
Qed.

Lemma wf_setup (w : World) (p : UseHlsPlayerProps) (env : Env) :
  wf w → wf (setup w p env).1.
Proof.
  intros Hw h c Hc.
  destruct (setup_closures w p env) as [[Hcl Hf]|(v & Hcl & Hf)];
    rewrite Hcl in Hc; rewrite Hf.
  - by apply Hw.
  - destruct (decide (fresh w = h)) as [<-|Hne].
    + rewrite lookup_insert_eq in Hc. inversion Hc; subst; simpl. lia.
    + rewrite lookup_insert_ne in Hc by done. apply Hw in Hc. lia.
Qed.

Lemma wf_step (w : World) (i : Input) : wf w → wf (step w i).1.
Proof.
  intros Hw. destruct i as [p env| |h paused ev|k o]; simpl.
  - unfold run_effect. simpl.
    destruct (setup _ p env) as [w2 a2] eqn:E. simpl.
    change w2 with (w2, a2).1. rewrite <- E. by apply wf_setup.
  - exact Hw.
  - unfold emit. destruct (closures w !! h) as [c|] eqn:Hc; [|exact Hw].
    destruct (handle c paused ev) as [c' acts] eqn:E. simpl.
    intros h' c0 H0. simpl in *.
    destruct (decide (h = h')) as [<-|Hne].
    + rewrite lookup_insert_eq in H0. inversion H0; subst.
      destruct (handle_fields c paused ev) as (_ & _ & Hh).
      rewrite E in Hh. simpl in Hh. rewrite Hh. by apply Hw.
    + rewrite lookup_insert_ne in H0 by done. by apply Hw.
  - unfold settle. destruct (pending w !! k) as [[h' k']|]; exact Hw.
Qed.

Lemma run_cons (w : World) (i : Input) (ins : list Input) :
  run w (i :: ins) =
  ((run (step w i).1 ins).1, (step w i).2 ++ (run (step w i).1 ins).2).
Proof.
  simpl. destruct (step w i) as [w1 a1]. simpl.
  by destruct (run w1 ins) as [w2 a2].
Qed.

Lemma wf_run (w : World) (ins : list Input) : wf w → wf (run w ins).1.
Proof.
  revert w. induction ins as [|i ins IH]; intros w Hw; [done|].
  rewrite run_cons. simpl. apply IH. by apply wf_step.
Qed.

Lemma wf_reachable (ins : list Input) : wf (run init ins).1.
Proof. apply wf_run, wf_init. Qed.

(** ** The recovery counters *)

(** One input, seen from a closure that exists already: it stays where it
    is, keeps its props, and its counters move only on its own fatal
    faults. *)
Lemma step_closure (w : World) (i : Input) (h : nat) (c : Closure) :
  wf w → closures w !! h = Some c →
  ∃ c', closures (step w i).1 !! h = Some c' ∧
        props c' = props c ∧
        networkErrorRetries c' =
          networkErrorRetries c + (if is_fatal_of NETWORK_ERROR h i then 1 else 0) ∧
        mediaErrorRetries c' =
          mediaErrorRetries c + (if is_fatal_of MEDIA_ERROR h i then 1 else 0).
Proof.
  intros Hw Hc. destruct i as [p env| |h' paused ev|k o]; simpl.
  - exists c. unfold run_effect. simpl.
    destruct (setup _ p env) as [w2 a2] eqn:E. simpl.
    split; [|repeat split; lia].
    change w2 with (w2, a2).1. rewrite <- E.
    match goal with |- closures (setup ?w0 _ _).1 !! _ = _ =>
      destruct (setup_closures w0 p env) as [[-> _]|(v & -> & _)] end;
      simpl; [done|].
    rewrite lookup_insert_ne; [done|]. apply Hw in Hc. lia.
  - exists c. repeat split; try done; lia.
  - unfold emit. destruct (closures w !! h') as [c0|] eqn:Hc0.
    + destruct (handle c0 paused ev) as [c' acts] eqn:E. simpl.
      destruct (decide (h' = h)) as [->|Hne].
      * rewrite lookup_insert_eq. exists c'. split; [done|].
        assert (c0 = c) as -> by congruence.
        destruct (Hw _ _ Hc) as [Hh _].
        pose proof (handle_fields c paused ev) as (Hp & _ & _).
        pose proof (handle_counters c paused ev) as [Hn Hm].
        rewrite E, ?Hh in *. simpl in *. done.
      * rewrite lookup_insert_ne by done. exists c.
        rewrite (bool_decide_eq_false_2 _ Hne).
        destruct ev; simpl; repeat split; try done; lia.
    + exists c. assert (h' ≠ h) as Hne by congruence.
      rewrite (bool_decide_eq_false_2 _ Hne).
      destruct ev; simpl; repeat split; try done; lia.
  - exists c. unfold settle.
    destruct (pending w !! k) as [[h' k']|]; simpl; repeat split; try done; lia.
Qed.





(** ** The network retry ceiling *)

(** The error handler never calls [video.play()]. *)
Lemma plays_on_ERROR (h : nat) (c : Closure) (d : ErrorData) :
  plays h (on_ERROR c d).2 = [].
Proof.
  unfold on_ERROR, call_onError.
  destruct (fatal d); [destruct (type d)|]; simpl;
    repeat case_match; reflexivity.
Qed.

Lemma emit_error (w : World) (h : nat) (paused : bool) (d : ErrorData) (c : Closure) :
  closures w !! h = Some c →
  emit w h paused (EvError d) =
  ({| hlsRef := hlsRef w; fresh := fresh w;
      closures := <[h := (on_ERROR c d).1]> (closures w);
      cleanup := cleanup w; pending := pending w |},
   (on_ERROR c d).2).
Proof.
  intros Hc. unfold emit. rewrite Hc. simpl.
  pose proof (plays_on_ERROR h c d) as Hp.
  destruct (on_ERROR c d) as [c' acts]. simpl in *.
  by rewrite Hp, app_nil_r.
Qed.

(** The body of the effect, its cleanup and the rejection handlers never
    resume loading. *)
Lemma setup_no_startLoad (w : World) (p : UseHlsPlayerProps) (env : Env) :
  Forall (fun a => is_startLoad a = false) (setup w p env).2.
Proof.
  unfold setup, call_onError.
  repeat case_match; simpl; repeat constructor.
Qed.

Lemma run_cleanup_no_startLoad (w : World) :
  Forall (fun a => is_startLoad a = false) (run_cleanup w).2.
Proof.
  unfold run_cleanup. simpl. repeat case_match; repeat constructor.
Qed.

Lemma on_play_rejected_no_startLoad (c : Closure) (k : CatchHandler) (err : string) :
  Forall (fun a => is_startLoad a = false) (on_play_rejected c k err).
Proof.
  unfold on_play_rejected, call_onAutoPlayPrevented.
  repeat case_match; repeat constructor.
Qed.

(** Past the ceiling, the handlers of a closure never resume loading. *)
Lemma handle_no_startLoad (c : Closure) (paused : bool) (ev : EngineEvent) :
  MAX_RETRIES < networkErrorRetries c →
  Forall (fun a => is_startLoad a = false) (handle c paused ev).2.
Proof.
  intros Hn. destruct ev as [s|l|d]; simpl.
  - unfold on_FRAG_LOADED. case_match; repeat constructor.
  - unfold on_MANIFEST_PARSED, call_onError.
    repeat case_match; simpl; repeat constructor.
  - unfold on_ERROR, call_onError.
    destruct (fatal d); [|repeat constructor].
    destruct (type d); cbn [snd].
    + destruct (Nat.leb_spec (S (networkErrorRetries c)) MAX_RETRIES); [lia|].
      case_match; simpl; repeat constructor.
    + repeat case_match; simpl; repeat constructor.
    + case_match; simpl; repeat constructor.
    + case_match; simpl; repeat constructor.
    + case_match; simpl; repeat constructor.
Qed.

Lemma step_no_startLoad (w : World) (i : Input) (h : nat) (c : Closure) :
  wf w → closures w !! h = Some c →
  MAX_RETRIES < networkErrorRetries c →
  Forall (fun a => a ≠ HlsStartLoad h) (step w i).2.
Proof.
  intros Hw Hc Hn.
  assert (∀ l, Forall (fun a => is_startLoad a = false) l →
               Forall (fun a => a ≠ HlsStartLoad h) l) as Hweak.
  { intros l Hl. eapply Forall_impl; [exact Hl|]. intros a Ha ->. discriminate. }
  destruct i as [p env| |h' paused ev|k o]; simpl.
  - unfold run_effect.
    pose proof (run_cleanup_no_startLoad w) as H1.
    destruct (run_cleanup w) as [w1 a1].
    pose proof (setup_no_startLoad w1 p env) as H2.
    destruct (setup w1 p env) as [w2 a2]. simpl in *.
    apply Hweak, Forall_app. by split.
  - apply Hweak, run_cleanup_no_startLoad.
  - unfold emit. destruct (closures w !! h') as [c0|] eqn:Hc0; [|constructor].
    pose proof (handle_engine_of c0 paused ev) as He.
    destruct (decide (h' = h)) as [->|Hne].
    + assert (c0 = c) as -> by congruence.
      pose proof (handle_no_startLoad c paused ev Hn) as Hs.
      destruct (handle c paused ev) as [c' acts]. simpl in *. by apply Hweak.
    + destruct (handle c0 paused ev) as [c' acts]. simpl in *.
      eapply Forall_impl; [exact He|].
      intros a Ha ->. specialize (Ha h eq_refl).
      apply Hw in Hc0. destruct Hc0 as [Hh _]. congruence.
  - unfold settle. destruct (pending w !! k) as [[h' k']|]; [|constructor].
    simpl. destruct o as [err|]; [|constructor].
    destruct (closures w !! h') as [c0|]; [|constructor].
    apply Hweak, on_play_rejected_no_startLoad.
Qed.

Lemma run_no_startLoad (w : World) (ins : list Input) (h : nat) (c : Closure) :
  wf w → closures w !! h = Some c →
  MAX_RETRIES < networkErrorRetries c →
  Forall (fun a => a ≠ HlsStartLoad h) (run w ins).2.
Proof.
  revert w c. induction ins as [|i ins IH]; intros w c Hw Hc Hn; [constructor|].
  rewrite run_cons. simpl. apply Forall_app. split.
  - by eapply step_no_startLoad.
  - destruct (step_closure w i h c Hw Hc) as (c1 & Hc1 & _ & Hn1 & _).
    apply (IH _ c1); [by apply wf_step|done|lia].
Qed.

(** One fatal network fault on a closure whose counter is [n]. *)
Lemma network_fault_step (w : World) (h f n : nat) (c : Closure) (paused : bool) (d : string) :
  closures w !! h = Some c → hls c = h →
  networkErrorRetries c = n → onError (props c) = Some f →
  ∃ w' c',
    step w (Emit h paused (EvError (network_fault_of d))) =
      (w', Console Error (retry_log "Network" (S n)) ::
           if S n <=? MAX_RETRIES then [HlsStartLoad h]
           else [Console Error "[HLS] Too many network errors, giving up";
                 CallOnError f network_message; HlsDestroy h])
    ∧ closures w' !! h = Some c' ∧ hls c' = h
    ∧ networkErrorRetries c' = S n ∧ onError (props c') = Some f.
Proof.
  intros Hc Hh Hn Hf. cbn [step]. rewrite (emit_error _ _ _ _ _ Hc).
  eexists _, (set_networkErrorRetries c (S n)). split; [|split].
  - f_equal. unfold on_ERROR, call_onError. cbn [fatal type network_fault_of snd].
    rewrite Hn, Hh, Hf. reflexivity.
  - cbn [closures]. unfold on_ERROR. cbn [fatal type network_fault_of fst].
    rewrite Hn. apply lookup_insert_eq.
  - by simpl.
Qed.

(** C1.  The ceiling is [MAX_RETRIES = 3].  Take a session (engine [h],
    closure [c]) with no network fault so far and an error callback [f].
    The first three fatal network faults each log and call [startLoad] on
    the engine; the fourth brings the counter to 4, reports the
    network-exhausted message to [onError], destroys the engine and does
    not call [startLoad]; and whatever happens afterwards, [startLoad] is
    never called on this engine again. *)
Theorem network_retry_ceiling (ins0 later : list Input) (h f : nat) (c : Closure)
    (p1 p2 p3 p4 : bool) (d1 d2 d3 d4 : string) :
  closures (run init ins0).1 !! h = Some c →
  networkErrorRetries c = 0 →
  onError (props c) = Some f →
  let fault p d := Emit h p (EvError (network_fault_of d)) in
  let r := run (run init ins0).1 [fault p1 d1; fault p2 d2; fault p3 d3; fault p4 d4] in
  r.2 = [Console Error (retry_log "Network" 1); HlsStartLoad h;
         Console Error (retry_log "Network" 2); HlsStartLoad h;
         Console Error (retry_log "Network" 3); HlsStartLoad h;
         Console Error (retry_log "Network" 4);
         Console Error "[HLS] Too many network errors, giving up";
         CallOnError f network_message; HlsDestroy h]
  ∧ networkErrorRetries <$> closures r.1 !! h = Some 4
  ∧ Forall (fun a => a ≠ HlsStartLoad h) (run r.1 later).2.
Proof.
  intros Hc Hn Hf fault r.
  pose proof (wf_reachable ins0) as Hw.
  assert (wf r.1) as Hwr by (apply wf_run, Hw).
  destruct (Hw h c Hc) as [Hh _].
  destruct (network_fault_step _ h f 0 c p1 d1 Hc Hh Hn Hf)
    as (w1 & c1 & E1 & Hc1 & Hh1 & Hn1 & Hf1).
  destruct (network_fault_step _ h f 1 c1 p2 d2 Hc1 Hh1 Hn1 Hf1)
    as (w2 & c2 & E2 & Hc2 & Hh2 & Hn2 & Hf2).
  destruct (network_fault_step _ h f 2 c2 p3 d3 Hc2 Hh2 Hn2 Hf2)
    as (w3 & c3 & E3 & Hc3 & Hh3 & Hn3 & Hf3).
  destruct (network_fault_step _ h f 3 c3 p4 d4 Hc3 Hh3 Hn3 Hf3)
    as (w4 & c4 & E4 & Hc4 & Hh4 & Hn4 & Hf4).
  assert (r = (w4, [Console Error (retry_log "Network" 1); HlsStartLoad h;
                    Console Error (retry_log "Network" 2); HlsStartLoad h;
                    Console Error (retry_log "Network" 3); HlsStartLoad h;
                    Console Error (retry_log "Network" 4);
                    Console Error "[HLS] Too many network errors, giving up";
                    CallOnError f network_message; HlsDestroy h])) as Hr.
  { subst r fault. rewrite run_cons, E1. cbn [fst snd].
    rewrite run_cons, E2. cbn [fst snd].
    rewrite run_cons, E3. cbn [fst snd].
    rewrite run_cons, E4. reflexivity. }
  rewrite Hr in *. cbn [fst snd]. split; [done|]. split.
  - by rewrite Hc4, <- Hn4.
  - apply (run_no_startLoad w4 later h c4 Hwr Hc4). unfold MAX_RETRIES. lia.
Qed.

Lemma network_retry_ceiling_witness :
  closures (run init [RunEffect Examples.props_a Examples.chrome]).1 !! 0
    = Some Examples.closure_a
  ∧ Forall (fun a => a ≠ HlsStartLoad 0)
      (run (run (run init [RunEffect Examples.props_a Examples.chrome]).1
              [Emit 0 true (EvError (network_fault_of "fragLoadError"));
               Emit 0 true (EvError (network_fault_of "fragLoadTimeOut"));
               Emit 0 false (EvError (network_fault_of "levelLoadError"));
               Emit 0 false (EvError (network_fault_of "fragLoadError"))]).1
         [Emit 0 false (EvError (network_fault_of "fragLoadError"));
          Emit 0 false (EvFragLoaded 0)]).2.
Proof.
  split; [reflexivity|].
  exact (proj2 (proj2 (network_retry_ceiling
           [RunEffect Examples.props_a Examples.chrome]
           [Emit 0 false (EvError (network_fault_of "fragLoadError"));
            Emit 0 false (EvFragLoaded 0)]
           0 2 Examples.closure_a true true false false
           "fragLoadError" "fragLoadTimeOut" "levelLoadError" "fragLoadError"
           eq_refl eq_refl eq_refl))).
Defined.

(** ** The codec scan *)

(** C3.  For a manifest whose only level has the codec string
    "hvc1.1.6.L93.B0", the scan finds neither 'hev' nor 'h265' in
    "hvc1.1.6.l93.b0": [hasHEVC] is false and the manifest handler sends no
    advisory at all (and no other error); it only starts playback when
    autoplay is set.  The sibling tag "hev1.1.6.L93.B0" of the same codec is
    found and reported once. *)
Theorem hvc1_advisory_missing :
  JS.toLowerCase "hvc1.1.6.L93.B0" = "hvc1.1.6.l93.b0" ∧
  hasHEVC [Examples.hvc1_level] = false ∧
  (∀ c : Closure,
     on_MANIFEST_PARSED c [Examples.hvc1_level] =
       if autoPlay (props c) then [VideoPlay (video c) CatchAutoplay] else []) ∧
  (∀ c : Closure,
     List.filter is_onError
       (on_MANIFEST_PARSED c [{| videoCodec := Some "hev1.1.6.L93.B0" |}]) =
     call_onError (props c) hevc_message).
Proof.
  split; [reflexivity|]. split; [reflexivity|]. split.
  - intros c. reflexivity.
  - intros c. unfold on_MANIFEST_PARSED, call_onError.
    change (hasHEVC [{| videoCodec := Some "hev1.1.6.L93.B0" |}]) with true.
    cbn [length Nat.ltb Nat.leb].
    destruct (onError (props c)), (autoPlay (props c)); reflexivity.
Qed.

(** ** The capability decision *)

Lemma truthy_nonempty (s : string) : JS.truthy s = true ↔ s ≠ EmptyString.
Proof.
  unfold JS.truthy. rewrite negb_true_iff. apply String.eqb_neq.
Qed.

(** The claim of C4 fails where both paths are open (desktop Safari): the
    runtime is usable, and yet the body builds no engine and hands the URL
    to the video element. *)
Lemma engine_not_preferred_cex :
  Hls_isSupported Examples.safari = true ∧
  (setup init Examples.props_a Examples.safari).2 =
    [VideoCanPlayType 7 mime_hls; HlsIsSupported; VideoSetSrc 7 "a.m3u8"] ∧
  hlsRef (setup init Examples.props_a Examples.safari).1 = None ∧
  closures (setup init Examples.props_a Examples.safari).1 = ∅.
Proof. repeat split. Qed.

(** C4, amended.  With a video element and a non-empty URL, the body of the
    effect decides native first: when the element reports native support
    the URL is handed to it, whether or not hls.js is usable; an engine is
    built only when there is no native support and hls.js is usable; with
    neither, the unsupported error is reported. *)
Theorem native_first (w : World) (p : UseHlsPlayerProps) (env : Env) (v : nat) :
  current (videoRef p) = Some v →
  src p ≠ EmptyString →
  (setup w p env).2 =
    destroy_previous w ++ [VideoCanPlayType v mime_hls; HlsIsSupported] ++
    (if JS.truthy (canPlayType env) then
       [VideoSetSrc v (src p)]
     else if Hls_isSupported env then
       [NewHls (fresh w); HlsLoadSource (fresh w) (src p);
        HlsAttachMedia (fresh w) v; HlsOn (fresh w) FRAG_LOADED;
        HlsOn (fresh w) MANIFEST_PARSED; HlsOn (fresh w) ERROR]
     else
       Console Error "[HLS] HLS not supported in this browser"
       :: call_onError p unsupported_message).
Proof.
  intros Hv Hs. apply truthy_nonempty in Hs.
  unfold setup, destroy_previous. rewrite Hv, Hs. simpl.
  destruct (Hls_isSupported env), (JS.truthy (canPlayType env)); reflexivity.
Qed.

Lemma native_first_witness :
  current (videoRef Examples.props_a) = Some 7 ∧
  src Examples.props_a ≠ EmptyString ∧
  (setup init Examples.props_a Examples.safari).2 =
    [VideoCanPlayType 7 mime_hls; HlsIsSupported; VideoSetSrc 7 "a.m3u8"].
Proof.
  assert (src Examples.props_a ≠ EmptyString) as Hs by discriminate.
  split; [reflexivity|]. split; [exact Hs|].
  exact (native_first init Examples.props_a Examples.safari 7 eq_refl Hs).
Defined.

(** C8.  With a video element and a non-empty URL, when hls.js is not
    usable and the element reports no native support, the body reports the
    unsupported message to [onError] right away; it builds no engine,
    registers no closure, leaves [hlsRef] empty and never sets the source
    of the element. *)
Theorem unsupported_reported (w : World) (p : UseHlsPlayerProps) (env : Env) (v f : nat) :
  current (videoRef p) = Some v →
  src p ≠ EmptyString →
  Hls_isSupported env = false →
  canPlayType env = EmptyString →
  onError p = Some f →
  (setup w p env).2 =
    destroy_previous w ++
    [VideoCanPlayType v mime_hls; HlsIsSupported;
     Console Error "[HLS] HLS not supported in this browser";
     CallOnError f unsupported_message]
  ∧ Forall (fun a => is_new a = false ∧ is_setSrc a = false) (setup w p env).2
  ∧ closures (setup w p env).1 = closures w
  ∧ hlsRef (setup w p env).1 = None
  ∧ cleanup (setup w p env).1 = Some None.
Proof.
  intros Hv Hs Hh Hn Hf.
  apply truthy_nonempty in Hs.
  unfold setup, destroy_previous, call_onError. rewrite Hv, Hs, Hh, Hn, Hf. simpl.
  repeat split. destruct (hlsRef w); repeat constructor.
Qed.

Lemma unsupported_reported_witness :
  (setup init Examples.props_a Examples.neither).2 =
    [VideoCanPlayType 7 mime_hls; HlsIsSupported;
     Console Error "[HLS] HLS not supported in this browser";
     CallOnError 2 unsupported_message].
Proof.
  assert (src Examples.props_a ≠ EmptyString) as Hs by discriminate.
  exact (proj1 (unsupported_reported init Examples.props_a Examples.neither 7 2
                  eq_refl Hs eq_refl eq_refl eq_refl)).
Defined.

(** C10.  When the ref holds no element, or the URL is the empty string,
    the body of the effect does nothing: no action at all (so no engine, no
    call on the element, no callback), and [hlsRef], the closures and the
    pending promises are as before; it returns no cleanup function. *)
Theorem guard_does_nothing (w : World) (p : UseHlsPlayerProps) (env : Env) :
  current (videoRef p) = None ∨ src p = EmptyString →
  (setup w p env).2 = []
  ∧ hlsRef (setup w p env).1 = hlsRef w
  ∧ closures (setup w p env).1 = closures w
  ∧ fresh (setup w p env).1 = fresh w
  ∧ pending (setup w p env).1 = pending w
  ∧ cleanup (setup w p env).1 = None.
Proof.
  intros [Hv|Hs]; unfold setup.
  - rewrite Hv. done.
  - rewrite Hs. destruct (current (videoRef p)); done.
Qed.

Lemma guard_does_nothing_witness :
  (setup init
     {| videoRef := Examples.ref7; src := EmptyString; autoPlay := true;
        onAutoPlayPrevented := Some 1; onError := Some 2 |}
     Examples.chrome).2 = [].
Proof.
  exact (proj1 (guard_does_nothing init
           {| videoRef := Examples.ref7; src := EmptyString; autoPlay := true;
              onAutoPlayPrevented := Some 1; onError := Some 2 |}
           Examples.chrome (or_intror eq_refl))).
Defined.

(** ** Autoplay *)

(** With autoplay set the manifest handler calls [video.play()] once. *)
Lemma manifest_plays_once (c : Closure) (levels : list Level) :
  autoPlay (props c) = true →
  List.filter is_play (on_MANIFEST_PARSED c levels) =
    [VideoPlay (video c) CatchAutoplay].
Proof.
  intros Ha. unfold on_MANIFEST_PARSED, call_onError. rewrite Ha.
  repeat case_match; reflexivity.
Qed.

Lemma plays_on_MANIFEST_PARSED (h : nat) (c : Closure) (levels : list Level) :
  autoPlay (props c) = true →
  plays h (on_MANIFEST_PARSED c levels) = [(h, CatchAutoplay)].
Proof.
  intros Ha. unfold on_MANIFEST_PARSED, call_onError. rewrite Ha.
  repeat case_match; reflexivity.
Qed.

(** The claim of C6 fails in the manifest handler: with autoplay set and the
    element already playing ([video.paused] false when the event arrives),
    the handler still calls [video.play()]. *)
Lemma manifest_plays_while_playing_cex :
  autoPlay Examples.props_a = true ∧
  (run init [RunEffect Examples.props_a Examples.chrome;
             Emit 0 false (EvManifestParsed [])]).2 =
    [VideoCanPlayType 7 mime_hls; HlsIsSupported;
     NewHls 0; HlsLoadSource 0 "a.m3u8"; HlsAttachMedia 0 7;
     HlsOn 0 FRAG_LOADED; HlsOn 0 MANIFEST_PARSED; HlsOn 0 ERROR;
     VideoPlay 7 CatchAutoplay].
Proof. split; reflexivity. Qed.

(** C6, amended.  With autoplay set: while the element is not paused the
    fragment handler issues no play request, whatever the fragment; the
    error handler never issues one; the manifest handler does not read
    [video.paused] and issues exactly one play request, paused or not. *)
Theorem play_requests (c : Closure) (paused : bool) (frag_start : Q)
    (levels : list Level) (d : ErrorData) :
  autoPlay (props c) = true →
  (handle c false (EvFragLoaded frag_start)).2 = []
  ∧ List.filter is_play (handle c paused (EvError d)).2 = []
  ∧ List.filter is_play (handle c paused (EvManifestParsed levels)).2 =
      [VideoPlay (video c) CatchAutoplay].
Proof.
  intros Ha. split; [|split].
  - simpl. unfold on_FRAG_LOADED. by rewrite andb_false_r.
  - simpl. unfold on_ERROR, call_onError.
    destruct (fatal d); [destruct (type d)|]; simpl;
      repeat case_match; reflexivity.
  - simpl. by apply manifest_plays_once.
Qed.

Lemma play_requests_witness :
  autoPlay (props Examples.closure_a) = true ∧
  (handle Examples.closure_a false (EvFragLoaded 0)).2 = [] ∧
  List.filter is_play
    (handle Examples.closure_a false (EvManifestParsed [Examples.hvc1_level])).2 =
    [VideoPlay 7 CatchAutoplay].
Proof.
  split; [reflexivity|].
  pose proof (play_requests Examples.closure_a false 0 [Examples.hvc1_level]
                Examples.network_fault eq_refl) as (H1 & _ & H3).
  split; [exact H1|exact H3].
Defined.

(** C7.  With autoplay set and a callback [f] for prevented autoplay: the
    manifest handler issues one play request, whose promise becomes the
    last pending one and carries the reporting rejection handler.  When
    that promise is rejected with [cause], the console is warned and [f] is
    called once with [cause]; nothing else happens: [onError] is not
    called, no engine is destroyed, the closures (and so the counters),
    [hlsRef] and the cleanup function are untouched, and the promise is
    gone from the pending ones, so the handler cannot run for it again. *)
Theorem autoplay_rejection (ins0 : list Input) (h f : nat) (c : Closure)
    (paused : bool) (levels : list Level) (cause : string) :
  let w := (run init ins0).1 in
  closures w !! h = Some c →
  autoPlay (props c) = true →
  onAutoPlayPrevented (props c) = Some f →
  let r1 := step w (Emit h paused (EvManifestParsed levels)) in
  let r2 := step r1.1 (Settle (length (pending w)) (Some cause)) in
  List.filter is_play r1.2 = [VideoPlay (video c) CatchAutoplay]
  ∧ pending r1.1 = pending w ++ [(h, CatchAutoplay)]
  ∧ r2.2 = [Console Warn "[HLS] Autoplay prevented:"; CallOnAutoPlayPrevented f cause]
  ∧ closures r2.1 = closures w
  ∧ hlsRef r2.1 = hlsRef w
  ∧ cleanup r2.1 = cleanup w
  ∧ pending r2.1 = pending w.
Proof.
  intros w Hc Ha Hf r1 r2.
  assert (r1 = ({| hlsRef := hlsRef w; fresh := fresh w; closures := closures w;
                   cleanup := cleanup w;
                   pending := pending w ++ [(h, CatchAutoplay)] |},
                on_MANIFEST_PARSED c levels)) as Hr1.
  { subst r1. cbn [step]. unfold emit. rewrite Hc. cbn [handle].
    rewrite (plays_on_MANIFEST_PARSED h c levels Ha).
    by rewrite (insert_id _ _ _ Hc). }
  assert (r2 = ({| hlsRef := hlsRef w; fresh := fresh w; closures := closures w;
                   cleanup := cleanup w; pending := pending w |},
                [Console Warn "[HLS] Autoplay prevented:";
                 CallOnAutoPlayPrevented f cause])) as Hr2.
  { subst r2. rewrite Hr1. cbn [step fst]. unfold settle. cbn [pending closures].
    rewrite list_lookup_middle by done. rewrite Hc.
    cbn [on_play_rejected]. unfold call_onAutoPlayPrevented. rewrite Hf.
    rewrite delete_middle, app_nil_r. reflexivity. }
  rewrite Hr2, Hr1. cbn [fst snd closures hlsRef cleanup pending].
  split; [|done]. by apply manifest_plays_once.
Qed.

Lemma autoplay_rejection_witness :
  closures (run init [RunEffect Examples.props_a Examples.chrome]).1 !! 0
    = Some Examples.closure_a
  ∧ (step (step (run init [RunEffect Examples.props_a Examples.chrome]).1
             (Emit 0 true (EvManifestParsed [Examples.hvc1_level]))).1
       (Settle 0 (Some "NotAllowedError"))).2 =
    [Console Warn "[HLS] Autoplay prevented:";
     CallOnAutoPlayPrevented 1 "NotAllowedError"].
Proof.
  split; [reflexivity|].
  pose proof (autoplay_rejection [RunEffect Examples.props_a Examples.chrome]
                0 1 Examples.closure_a true [Examples.hvc1_level]
                "NotAllowedError" eq_refl eq_refl eq_refl) as (_ & _ & H & _).
  exact H.
Defined.

(** ** One engine at a time *)

Lemma size_cleanup_target (w : World) : size (cleanup_target w) ≤ 1.
Proof.
  unfold cleanup_target. destruct (cleanup w) as [[h|]|].
  - by rewrite size_singleton.
  - rewrite size_empty. lia.
  - rewrite size_empty. lia.
Qed.

Lemma teardown_first_app (L : gset nat) (t1 t2 : list Action) :
  teardown_first L t1 → teardown_first (live_after L t1) t2 →
  teardown_first L (t1 ++ t2).
Proof.
  revert L. induction t1 as [|a t1 IH]; intros L H1 H2; [exact H2|].
  simpl in *. destruct H1 as (Hs & Ha & H1). repeat split; try done.
  by apply IH.
Qed.

Lemma live_after_app (L : gset nat) (t1 t2 : list Action) :
  live_after L (t1 ++ t2) = live_after (live_after L t1) t2.
Proof. unfold live_after. apply foldl_app. Qed.

(** A trace that neither asks what the browser can play nor builds an
    engine keeps the order, and can only shrink the set of live engines. *)
Lemma quiet_trace (L : gset nat) (tr : list Action) :
  Forall (fun a => starts_binding a = false) tr → size L ≤ 1 →
  teardown_first L tr ∧ live_after L tr ⊆ L.
Proof.
  revert L. induction tr as [|a tr IH]; intros L Hq Hs; [done|].
  inversion Hq as [|? ? Ha Hq']; subst.
  assert (live_step L a ⊆ L) as Hsub.
  { destruct a; simpl in *; try done. apply subseteq_difference_l. done. }
  destruct (IH (live_step L a) Hq') as [H1 H2].
  { etrans; [apply subseteq_size, Hsub|done]. }
  split.
  - simpl. repeat split; [done|congruence|done].
  - simpl. etrans; [exact H2|exact Hsub].
Qed.

Lemma handle_quiet (c : Closure) (paused : bool) (ev : EngineEvent) :
  Forall (fun a => starts_binding a = false) (handle c paused ev).2.
Proof.
  destruct ev as [s|l|d]; simpl;
    unfold on_FRAG_LOADED, on_MANIFEST_PARSED, on_ERROR, call_onError;
    repeat case_match; simpl; repeat constructor.
Qed.

Lemma on_play_rejected_quiet (c : Closure) (k : CatchHandler) (err : string) :
  Forall (fun a => starts_binding a = false) (on_play_rejected c k err).
Proof.
  unfold on_play_rejected, call_onAutoPlayPrevented.
  repeat case_match; repeat constructor.
Qed.

(** The cleanup function destroys the one engine that may be alive. *)
Lemma run_cleanup_order (w : World) (L : gset nat) :
  L ⊆ cleanup_target w →
  teardown_first L (run_cleanup w).2 ∧ live_after L (run_cleanup w).2 = ∅.
Proof.
  intros HL.
  assert (size L ≤ 1) as Hs.
  { etrans; [apply subseteq_size, HL|apply size_cleanup_target]. }
  unfold run_cleanup, cleanup_target in *. cbn [snd].
  destruct (cleanup w) as [[h|]|]; simpl.
  - repeat split; try done.
    + etrans; [apply subseteq_size, subseteq_difference_l; reflexivity|done].
    + by apply subseteq_empty_difference_L.
  - split; [done|]. apply elem_of_equiv_empty_L. intros x Hx.
    apply HL in Hx. by apply not_elem_of_empty in Hx.
  - split; [done|]. apply elem_of_equiv_empty_L. intros x Hx.
    apply HL in Hx. by apply not_elem_of_empty in Hx.
Qed.

(** Started with no engine alive, the body of the effect keeps the order,
    and an engine it leaves alive is the one its cleanup will destroy. *)
Lemma setup_order (w : World) (p : UseHlsPlayerProps) (env : Env) :
  teardown_first ∅ (setup w p env).2 ∧
  live_after ∅ (setup w p env).2 ⊆ cleanup_target (setup w p env).1.
Proof.
  assert (size (∅ : gset nat) ≤ 1) as H0 by (rewrite size_empty; lia).
  assert ((∅ : gset nat) ∪ {[fresh w]} = {[fresh w]}) as Hu
    by apply union_empty_l_L.
  assert (size ({[fresh w]} : gset nat) ≤ 1) as H1 by by rewrite size_singleton.
  assert (∀ old : nat, (∅ : gset nat) ∖ {[old]} = ∅) as Hd
    by (intros old; apply empty_difference_L).
  unfold setup, call_onError, cleanup_target.
  destruct (current (videoRef p)) as [v|]; [|done].
  destruct (JS.truthy (src p)); [|done].
  destruct (hlsRef w) as [old|], (Hls_isSupported env),
    (JS.truthy (canPlayType env)), (onError p);
    cbn [negb teardown_first live_step live_after foldl fst snd app cleanup
         starts_binding];
    rewrite ?Hd, ?Hu; repeat split; try done.
Qed.

(** One input: the order is kept, and the live engines stay within what the
    cleanup function will destroy. *)
Lemma step_order (w : World) (i : Input) (L : gset nat) :
  L ⊆ cleanup_target w →
  teardown_first L (step w i).2 ∧
  live_after L (step w i).2 ⊆ cleanup_target (step w i).1.
Proof.
  intros HL.
  assert (size L ≤ 1) as Hs.
  { etrans; [apply subseteq_size, HL|apply size_cleanup_target]. }
  destruct i as [p env| |h paused ev|k o]; cbn [step].
  - unfold run_effect.
    destruct (run_cleanup_order w L HL) as [H1 H2].
    destruct (run_cleanup w) as [w1 a1]. cbn [fst snd] in *.
    destruct (setup_order w1 p env) as [H3 H4].
    destruct (setup w1 p env) as [w2 a2]. cbn [fst snd] in *.
    rewrite live_after_app, H2. split; [|done].
    apply teardown_first_app; [done|]. by rewrite H2.
  - destruct (run_cleanup_order w L HL) as [H1 H2].
    split; [done|]. rewrite H2. apply empty_subseteq.
  - unfold emit. destruct (closures w !! h) as [c|]; [|done].
    pose proof (handle_quiet c paused ev) as Hq.
    destruct (handle c paused ev) as [c' acts]. cbn [fst snd] in *.
    destruct (quiet_trace L acts Hq Hs) as [H1 H2].
    split; [done|]. etrans; [exact H2|exact HL].
  - unfold settle. destruct (pending w !! k) as [[h' k']|]; [|done].
    cbn [fst snd].
    assert (Forall (fun a => starts_binding a = false)
              match o, closures w !! h' with
              | Some err, Some c => on_play_rejected c k' err
              | _, _ => []
              end) as Hq.
    { destruct o; [|constructor]. destruct (closures w !! h'); [|constructor].
      apply on_play_rejected_quiet. }
    destruct (quiet_trace L _ Hq Hs) as [H1 H2].
    split; [done|]. etrans; [exact H2|exact HL].
Qed.

Lemma run_order (w : World) (ins : list Input) (L : gset nat) :
  L ⊆ cleanup_target w → teardown_first L (run w ins).2.
Proof.
  revert w L. induction ins as [|i ins IH]; intros w L HL.
  - simpl. split; [|done].
    etrans; [apply subseteq_size, HL|apply size_cleanup_target].
  - rewrite run_cons. cbn [snd].
    destruct (step_order w i L HL) as [H1 H2].
    apply teardown_first_app; [done|]. by apply IH.
Qed.

(** C9.  Along every history of the hook, started with no engine: at no
    point of the trace are two engines alive (built and not destroyed), and
    whenever the effect asks what the browser can play or builds an engine,
    no engine is alive: the one bound before has been destroyed first. *)
Theorem teardown_before_bind (ins : list Input) :
  teardown_first ∅ (run init ins).2.
Proof. apply run_order, empty_subseteq. Qed.

(** The order is a real constraint on traces: building a second engine
    while the first is alive breaks it. *)
Lemma teardown_first_rejects_overlap :
  ¬ teardown_first ∅ [NewHls 0; NewHls 1].
Proof.
  simpl. intros (_ & _ & _ & H & _). specialize (H eq_refl).
  apply (not_elem_of_empty (C := gset nat) 0). rewrite <- H.
  apply elem_of_union_r, elem_of_singleton. reflexivity.
Qed.

(** ** Events of a torn-down engine *)







(** * Further properties *)

(** ** Retries are bounded *)

Lemma calls_app (f : Action → bool) (t1 t2 : list Action) :
  calls f (t1 ++ t2) = calls f t1 + calls f t2.
Proof. unfold calls. by rewrite List.filter_app, length_app. Qed.

Lemma calls_none (f : Action → bool) (tr : list Action) :
  Forall (fun a => f a = false) tr → calls f tr = 0.
Proof.
  unfold calls. induction 1 as [|a tr Ha _ IH]; [done|].
  simpl. by rewrite Ha.
Qed.

(** The retry calls of one handler run: one when the event is a fatal
    fault of the category and the counter, once moved, is within the
    ceiling; none otherwise. *)
Lemma handle_recovery_calls (k : Category) (c : Closure) (paused : bool)
    (ev : EngineEvent) (h : nat) :
  calls (is_recovery k h) (handle c paused ev).2 =
  if is_fatal_of (category_type k) (hls c) (Emit (hls c) paused ev)
     && (S (counter k c) <=? MAX_RETRIES) && bool_decide (hls c = h)
  then 1 else 0.
Proof.
  destruct ev as [s|l|d]; cbn [handle snd is_fatal_of andb].
  - unfold on_FRAG_LOADED. destruct k; case_match; reflexivity.
  - unfold on_MANIFEST_PARSED, call_onError.
    destruct k; repeat case_match; reflexivity.
  - rewrite bool_decide_eq_true_2 by done. cbn [andb].
    unfold on_ERROR, call_onError. cbv zeta.
    destruct k; cbn [counter category_type];
      destruct (fatal d); cbn [andb snd]; try (by destruct k);
      destruct (type d); cbn [andb snd];
      try destruct (S (networkErrorRetries c) <=? MAX_RETRIES);
      try destruct (S (mediaErrorRetries c) <=? MAX_RETRIES);
      destruct (onError (props c)); unfold calls; cbn;
      repeat case_bool_decide; try reflexivity; congruence.
Qed.

Lemma setup_no_recovery (w : World) (p : UseHlsPlayerProps) (env : Env) :
  Forall (fun a => is_any_recovery a = false) (setup w p env).2.
Proof.
  unfold setup, call_onError. repeat case_match; simpl; repeat constructor.
Qed.

Lemma run_cleanup_no_recovery (w : World) :
  Forall (fun a => is_any_recovery a = false) (run_cleanup w).2.
Proof.
  unfold run_cleanup. simpl. repeat case_match; repeat constructor.
Qed.

Lemma on_play_rejected_no_recovery (c : Closure) (k : CatchHandler) (err : string) :
  Forall (fun a => is_any_recovery a = false) (on_play_rejected c k err).
Proof.
  unfold on_play_rejected, call_onAutoPlayPrevented.
  repeat case_match; repeat constructor.
Qed.

Lemma no_recovery_calls (k : Category) (h : nat) (tr : list Action) :
  Forall (fun a => is_any_recovery a = false) tr →
  calls (is_recovery k h) tr = 0.
Proof.
  intros H. apply calls_none. eapply Forall_impl; [exact H|].
  intros a Ha. destruct k, a; simpl in *; congruence.
Qed.

(** The retry calls of one input on engine [h]. *)
Lemma step_recovery_calls (k : Category) (w : World) (i : Input) (h : nat) :
  wf w →
  calls (is_recovery k h) (step w i).2 =
  match closures w !! h with
  | Some c =>
      if is_fatal_of (category_type k) h i && (S (counter k c) <=? MAX_RETRIES)
      then 1 else 0
  | None => 0
  end.
Proof.
  intros Hw.
  assert (∀ X : nat, match closures w !! h with
                     | Some c => if false && (S (counter k c) <=? MAX_RETRIES)
                                 then 1 else X
                     | None => X end = X) as Hfalse.
  { intros X. by destruct (closures w !! h). }
  destruct i as [p env| |h' paused ev|j o]; cbn [step].
  - cbn [is_fatal_of]. rewrite Hfalse. unfold run_effect.
    pose proof (run_cleanup_no_recovery w) as H1.
    destruct (run_cleanup w) as [w1 a1].
    pose proof (setup_no_recovery w1 p env) as H2.
    destruct (setup w1 p env) as [w2 a2]. cbn [snd] in *.
    apply no_recovery_calls, Forall_app. by split.
  - cbn [is_fatal_of]. rewrite Hfalse.
    apply no_recovery_calls, run_cleanup_no_recovery.
  - assert (h' ≠ h → is_fatal_of (category_type k) h (Emit h' paused ev) = false)
      as Hother.
    { intros Hne. destruct ev as [s|l|d]; cbn [is_fatal_of]; try done.
      by rewrite (bool_decide_eq_false_2 _ Hne). }
    unfold emit. destruct (closures w !! h') as [c0|] eqn:Hc0.
    + pose proof (handle_recovery_calls k c0 paused ev h) as Hr.
      destruct (Hw _ _ Hc0) as [Hh _].
      destruct (handle c0 paused ev) as [c' acts]. cbn [snd] in *.
      rewrite Hr, Hh. clear Hr.
      destruct (decide (h' = h)) as [->|Hne].
      * rewrite Hc0. rewrite (bool_decide_eq_true_2 (h = h)) by done.
        by rewrite andb_true_r.
      * rewrite (bool_decide_eq_false_2 _ Hne), andb_false_r.
        rewrite (Hother Hne). by destruct (closures w !! h).
    + cbn [snd]. destruct (closures w !! h) as [c|] eqn:Hc; [|done].
      assert (h' ≠ h) as Hne by congruence.
      by rewrite (Hother Hne).
  - cbn [is_fatal_of]. rewrite Hfalse. unfold settle.
    destruct (pending w !! j) as [[h' k']|]; [|done]. cbn [snd].
    apply no_recovery_calls.
    destruct o; [|constructor]. destruct (closures w !! h'); [|constructor].
    apply on_play_rejected_no_recovery.
Qed.

Lemma counter_after (k : Category) (w : World) (i : Input) (h : nat) (c : Closure) :
  wf w → closures w !! h = Some c →
  ∃ c', closures (step w i).1 !! h = Some c' ∧
        counter k c' =
          counter k c + (if is_fatal_of (category_type k) h i then 1 else 0).
Proof.
  intros Hw Hc.
  destruct (step_closure w i h c Hw Hc) as (c' & Hc' & _ & Hn & Hm).
  exists c'. split; [done|]. by destruct k.
Qed.

Lemma step_spent (k : Category) (w : World) (i : Input) (h : nat) :
  wf w →
  calls (is_recovery k h) (step w i).2 + spent k w h ≤ spent k (step w i).1 h.
Proof.
  intros Hw. rewrite (step_recovery_calls k w i h Hw). unfold spent.
  destruct (closures w !! h) as [c|] eqn:Hc; [|lia].
  destruct (counter_after k w i h c Hw Hc) as (c' & -> & Hk).
  rewrite Hk. unfold MAX_RETRIES.
  destruct (is_fatal_of (category_type k) h i); cbn [andb].
  - destruct (Nat.leb_spec (S (counter k c)) 3); lia.
  - lia.
Qed.

Lemma run_spent (k : Category) (w : World) (ins : list Input) (h : nat) :
  wf w →
  calls (is_recovery k h) (run w ins).2 + spent k w h ≤ spent k (run w ins).1 h.
Proof.
  revert w. induction ins as [|i ins IH]; intros w Hw; [simpl; lia|].
  rewrite run_cons. cbn [fst snd]. rewrite calls_app.
  pose proof (step_spent k w i h Hw).
  pose proof (IH _ (wf_step w i Hw)). lia.
Qed.

(** Over any history of the hook, and for each engine, [startLoad] is
    called at most [MAX_RETRIES] times and so is [recoverMediaError]. *)
Theorem retries_bounded (ins : list Input) (k : Category) (h : nat) :
  calls (is_recovery k h) (run init ins).2 ≤ MAX_RETRIES.
Proof.
  pose proof (run_spent k init ins h wf_init) as H.
  assert (spent k (run init ins).1 h ≤ MAX_RETRIES) as Hle.
  { unfold spent. destruct (closures (run init ins).1 !! h); lia. }
  lia.
Qed.

(** Once a counter is past the ceiling, the retry of its category is never
    called on that engine again. *)
Lemma run_exhausted (k : Category) (w : World) (ins : list Input) (h : nat) (c : Closure) :
  wf w → closures w !! h = Some c → MAX_RETRIES < counter k c →
  calls (is_recovery k h) (run w ins).2 = 0.
Proof.
  intros Hw Hc Hk.
  pose proof (run_spent k w ins h Hw) as H.
  assert (spent k w h = MAX_RETRIES) as Hs by (unfold spent; rewrite Hc; lia).
  assert (spent k (run w ins).1 h ≤ MAX_RETRIES) as Hle.
  { unfold spent. destruct (closures (run w ins).1 !! h); lia. }
  lia.
Qed.

(** ** The media retry ceiling *)

(** One fatal media fault on a closure whose media counter is [n]. *)
Lemma media_fault_step (w : World) (h f n : nat) (c : Closure) (paused : bool) (d : string) :
  closures w !! h = Some c → hls c = h →
  mediaErrorRetries c = n → onError (props c) = Some f →
  ∃ w' c',
    step w (Emit h paused (EvError (media_fault_of d))) =
      (w', Console Error (retry_log "Media" (S n)) ::
           if S n <=? MAX_RETRIES then [HlsRecoverMediaError h]
           else [Console Error "[HLS] Too many media errors, giving up";
                 CallOnError f media_message; HlsDestroy h])
    ∧ closures w' !! h = Some c' ∧ hls c' = h
    ∧ mediaErrorRetries c' = S n ∧ onError (props c') = Some f
    ∧ networkErrorRetries c' = networkErrorRetries c.
Proof.
  intros Hc Hh Hn Hf. cbn [step]. rewrite (emit_error _ _ _ _ _ Hc).
  eexists _, (set_mediaErrorRetries c (S n)). split; [|split].
  - f_equal. unfold on_ERROR, call_onError. cbn [fatal type media_fault_of snd].
    rewrite Hn, Hh, Hf. reflexivity.
  - cbn [closures]. unfold on_ERROR. cbn [fatal type media_fault_of fst].
    rewrite Hn. apply lookup_insert_eq.
  - by simpl.
Qed.

(** The media path of the error handler.  Take an engine [h] whose closure
    [c] has seen no media fault, with an error callback [f].  The first three
    fatal media faults each call [recoverMediaError]; the fourth reports the
    media message to [onError] and destroys the engine; the network counter
    is not touched; and whatever happens afterwards, [recoverMediaError] is
    never called on this engine again. *)
Theorem media_retry_ceiling (ins0 later : list Input) (h f : nat) (c : Closure)
    (p1 p2 p3 p4 : bool) (d1 d2 d3 d4 : string) :
  closures (run init ins0).1 !! h = Some c →
  mediaErrorRetries c = 0 →
  onError (props c) = Some f →
  let fault p d := Emit h p (EvError (media_fault_of d)) in
  let r := run (run init ins0).1 [fault p1 d1; fault p2 d2; fault p3 d3; fault p4 d4] in
  r.2 = [Console Error (retry_log "Media" 1); HlsRecoverMediaError h;
         Console Error (retry_log "Media" 2); HlsRecoverMediaError h;
         Console Error (retry_log "Media" 3); HlsRecoverMediaError h;
         Console Error (retry_log "Media" 4);
         Console Error "[HLS] Too many media errors, giving up";
         CallOnError f media_message; HlsDestroy h]
  ∧ (∃ c4, closures r.1 !! h = Some c4 ∧ mediaErrorRetries c4 = 4
           ∧ networkErrorRetries c4 = networkErrorRetries c)
  ∧ calls (is_recovery Media h) (run r.1 later).2 = 0.
Proof.
  intros Hc Hn Hf fault r.
  pose proof (wf_reachable ins0) as Hw.
  assert (wf r.1) as Hwr by (apply wf_run, Hw).
  destruct (Hw h c Hc) as [Hh _].
  destruct (media_fault_step _ h f 0 c p1 d1 Hc Hh Hn Hf)
    as (w1 & c1 & E1 & Hc1 & Hh1 & Hn1 & Hf1 & Hk1).
  destruct (media_fault_step _ h f 1 c1 p2 d2 Hc1 Hh1 Hn1 Hf1)
    as (w2 & c2 & E2 & Hc2 & Hh2 & Hn2 & Hf2 & Hk2).
  destruct (media_fault_step _ h f 2 c2 p3 d3 Hc2 Hh2 Hn2 Hf2)
    as (w3 & c3 & E3 & Hc3 & Hh3 & Hn3 & Hf3 & Hk3).
  destruct (media_fault_step _ h f 3 c3 p4 d4 Hc3 Hh3 Hn3 Hf3)
    as (w4 & c4 & E4 & Hc4 & Hh4 & Hn4 & Hf4 & Hk4).
  assert (r.1 = w4 ∧
          r.2 = [Console Error (retry_log "Media" 1); HlsRecoverMediaError h;
                 Console Error (retry_log "Media" 2); HlsRecoverMediaError h;
                 Console Error (retry_log "Media" 3); HlsRecoverMediaError h;
                 Console Error (retry_log "Media" 4);
                 Console Error "[HLS] Too many media errors, giving up";
                 CallOnError f media_message; HlsDestroy h]) as [Hr1 Hr2].
  { subst r fault. rewrite run_cons, E1. cbn [fst snd].
    rewrite run_cons, E2. cbn [fst snd].
    rewrite run_cons, E3. cbn [fst snd].
    rewrite run_cons, E4. by split. }
  rewrite Hr1 in *. split; [done|]. split.
  - exists c4. repeat split; [done|done|congruence].
  - apply (run_exhausted Media w4 later h c4 Hwr Hc4).
    cbn [counter]. unfold MAX_RETRIES. lia.
Qed.

Lemma media_retry_ceiling_witness :
  closures (run init [RunEffect Examples.props_a Examples.chrome]).1 !! 0
    = Some Examples.closure_a
  ∧ calls (is_recovery Media 0)
      (run (run (run init [RunEffect Examples.props_a Examples.chrome]).1
              [Emit 0 true (EvError (media_fault_of "bufferStalledError"));
               Emit 0 true (EvError (media_fault_of "bufferAppendError"));
               Emit 0 false (EvError (media_fault_of "fragParsingError"));
               Emit 0 false (EvError (media_fault_of "bufferAppendError"))]).1
         [Emit 0 false (EvError (media_fault_of "bufferAppendError"))]).2 = 0.
Proof.
  split; [reflexivity|].
  exact (proj2 (proj2 (media_retry_ceiling
           [RunEffect Examples.props_a Examples.chrome]
           [Emit 0 false (EvError (media_fault_of "bufferAppendError"))]
           0 2 Examples.closure_a true true false false
           "bufferStalledError" "bufferAppendError" "fragParsingError"
           "bufferAppendError" eq_refl eq_refl eq_refl))).
Defined.

(** ** The outcomes of the error handler *)

(** Every run of the error handler ends in one of three ways, and does
    nothing else.  All it ever does is write to the console, call
    [onError], retry ([startLoad] or [recoverMediaError]) or destroy: no
    other engine method, nothing on the video element, no
    [onAutoPlayPrevented].  A non-fatal fault makes no engine call at all.
    A fatal fault makes exactly one engine call, which is either a retry or
    a destroy.  [onError], when supplied, is called exactly as often as the
    engine is destroyed, and every engine call goes to the closure's own
    engine. *)
Theorem error_outcomes (c : Closure) (d : ErrorData) :
  Forall (fun a => is_console a || is_onError a || is_any_recovery a
                   || is_destroy a = true) (on_ERROR c d).2
  ∧ calls is_engine_call (on_ERROR c d).2 = (if fatal d then 1 else 0)
  ∧ calls is_any_recovery (on_ERROR c d).2 + calls is_destroy (on_ERROR c d).2
    = calls is_engine_call (on_ERROR c d).2
  ∧ calls is_onError (on_ERROR c d).2
    = match onError (props c) with
      | Some _ => calls is_destroy (on_ERROR c d).2
      | None => 0
      end
  ∧ calls is_play (on_ERROR c d).2 = 0
  ∧ Forall (fun a => ∀ h, engine_of a = Some h → h = hls c) (on_ERROR c d).2.
Proof.
  assert (∀ P : list Action → Prop,
            (∀ tr, In tr
               [[Console Warn "[HLS] Non-fatal error:"];
                [Console Error (retry_log "Network" (S (networkErrorRetries c)));
                 HlsStartLoad (hls c)];
                Console Error (retry_log "Network" (S (networkErrorRetries c)))
                :: Console Error "[HLS] Too many network errors, giving up"
                :: call_onError (props c) network_message ++ [HlsDestroy (hls c)];
                [Console Error (retry_log "Media" (S (mediaErrorRetries c)));
                 HlsRecoverMediaError (hls c)];
                Console Error (retry_log "Media" (S (mediaErrorRetries c)))
                :: Console Error "[HLS] Too many media errors, giving up"
                :: call_onError (props c) media_message ++ [HlsDestroy (hls c)];
                Console Error "[HLS] Fatal error, cannot recover:"
                :: call_onError (props c) (fatal_message (details d))
                ++ [HlsDestroy (hls c)]] → P tr) →
            P (on_ERROR c d).2) as Hcases.
  { intros P HP. unfold on_ERROR. cbv zeta.
    destruct (fatal d); [|apply HP; simpl; tauto].
    destruct (type d); cbn [snd];
      try destruct (S (networkErrorRetries c) <=? MAX_RETRIES);
      try destruct (S (mediaErrorRetries c) <=? MAX_RETRIES);
      apply HP; simpl; tauto. }
  split; [|split; [|split; [|split; [|split]]]].
  - apply Hcases. intros tr Hin. simpl in Hin. unfold call_onError in Hin.
    repeat (destruct Hin as [<-|Hin]; [destruct (onError (props c));
                                         repeat constructor|]).
    done.
  - unfold on_ERROR, call_onError. cbv zeta.
    destruct (fatal d); [|reflexivity].
    destruct (type d); cbn [snd];
      try destruct (S (networkErrorRetries c) <=? MAX_RETRIES);
      try destruct (S (mediaErrorRetries c) <=? MAX_RETRIES);
      destruct (onError (props c)); reflexivity.
  - apply Hcases. intros tr Hin. simpl in Hin. unfold call_onError in Hin.
    repeat (destruct Hin as [<-|Hin]; [destruct (onError (props c));
                                         reflexivity|]).
    done.
  - unfold on_ERROR, call_onError. cbv zeta.
    destruct (fatal d); [|by destruct (onError (props c))].
    destruct (type d); cbn [snd];
      try destruct (S (networkErrorRetries c) <=? MAX_RETRIES);
      try destruct (S (mediaErrorRetries c) <=? MAX_RETRIES);
      destruct (onError (props c)); reflexivity.
  - apply Hcases. intros tr Hin. simpl in Hin. unfold call_onError in Hin.
    repeat (destruct Hin as [<-|Hin]; [destruct (onError (props c));
                                         reflexivity|]).
    done.
  - apply (handle_engine_of c true (EvError d)).
Qed.

(** A non-fatal fault changes nothing: the world after it is the world
    before it, and all it produces is console output. *)
Theorem non_fatal_is_silent (w : World) (h : nat) (paused : bool) (d : ErrorData) :
  fatal d = false →
  (step w (Emit h paused (EvError d))).1 = w
  ∧ Forall (fun a => is_console a = true) (step w (Emit h paused (EvError d))).2.
Proof.
  intros Hf. cbn [step]. unfold emit.
  destruct (closures w !! h) as [c|] eqn:Hc; [|by split].
  cbn [handle]. unfold on_ERROR. rewrite Hf. cbn [fst snd plays omap].
  split; [|by repeat constructor].
  rewrite (insert_id _ _ _ Hc), app_nil_r. by destruct w.
Qed.

Lemma non_fatal_is_silent_witness :
  (step (run init [RunEffect Examples.props_a Examples.chrome]).1
     (Emit 0 true (EvError {| fatal := false; type := NETWORK_ERROR;
                              details := "fragLoadError" |}))).1
  = (run init [RunEffect Examples.props_a Examples.chrome]).1.
Proof.
  exact (proj1 (non_fatal_is_silent
                  (run init [RunEffect Examples.props_a Examples.chrome]).1 0 true
                  {| fatal := false; type := NETWORK_ERROR;
                     details := "fragLoadError" |} eq_refl)).
Defined.

(** ** What the codec scan finds *)

Lemma append_cons (a : ascii) (s t : string) :
  String a s +:+ t = String a (s +:+ t).
Proof. reflexivity. Qed.

Lemma prefix_spec (n s : string) :
  String.prefix n s = true ↔ ∃ post, s = n +:+ post.
Proof.
  revert s. induction n as [|a n IH]; intros s.
  - split; [by exists s|by destruct s].
  - destruct s as [|b s]; simpl.
    + split; [done|]. intros [post H]. discriminate.
    + destruct (Ascii.ascii_dec a b) as [->|Hne].
      * rewrite IH. split; intros [post H]; exists post;
          rewrite append_cons in *; congruence.
      * split; [done|]. intros [post H]. rewrite append_cons in H. congruence.
Qed.

Lemma includes_cons (a : ascii) (s n : string) :
  JS.includes (String a s) n = String.prefix n (String a s) || JS.includes s n.
Proof. reflexivity. Qed.

Lemma includes_spec (s n : string) :
  JS.includes s n = true ↔ ∃ pre post, s = pre +:+ n +:+ post.
Proof.
  induction s as [|a s IH].
  - change (JS.includes EmptyString n) with (String.prefix n EmptyString || false).
    rewrite orb_false_r, prefix_spec. split.
    + intros [post H]. by exists EmptyString, post.
    + intros (pre & post & H). destruct pre; [by exists post|discriminate].
  - rewrite includes_cons, orb_true_iff, prefix_spec, IH. split.
    + intros [[post H]|(pre & post & H)].
      * by exists EmptyString, post.
      * exists (String a pre), post. rewrite append_cons. by rewrite H.
    + intros (pre & post & H). destruct pre as [|b pre].
      * left. by exists post.
      * right. exists pre, post. rewrite append_cons in H. congruence.
Qed.

Lemma toLowerCase_app (a b : string) :
  JS.toLowerCase (a +:+ b) = JS.toLowerCase a +:+ JS.toLowerCase b.
Proof.
  induction a as [|x a IH]; [done|].
  rewrite append_cons. simpl. by rewrite IH, append_cons.
Qed.

(** The scan answers true exactly when some level has a codec string whose
    lower-cased form contains 'hev' or 'h265' somewhere; levels without a
    codec never count. *)
Theorem hasHEVC_spec (levels : list Level) :
  hasHEVC levels = true ↔
  ∃ level codec pre post,
    In level levels ∧ videoCodec level = Some codec ∧
    (JS.toLowerCase codec = pre +:+ "hev" +:+ post ∨
     JS.toLowerCase codec = pre +:+ "h265" +:+ post).
Proof.
  unfold hasHEVC. rewrite existsb_exists. split.
  - intros (level & Hin & H). apply orb_true_iff in H.
    unfold codec_includes in H.
    destruct (videoCodec level) as [codec|] eqn:Hv; [|by destruct H].
    rewrite !includes_spec in H.
    destruct H as [(pre & post & H)|(pre & post & H)];
      exists level, codec, pre, post; auto.
  - intros (level & codec & pre & post & Hin & Hv & H).
    exists level. split; [done|]. apply orb_true_iff.
    unfold codec_includes. rewrite Hv, !includes_spec.
    destruct H as [H|H]; [left|right]; by exists pre, post.
Qed.

(** The scan does not depend on letter case or position: a codec string
    that contains, anywhere, a piece that lower-cases to 'hev' or to 'h265'
    is found, whatever surrounds it and whatever the other levels are. *)
Theorem hevc_found_in_any_case (levels : list Level) (level : Level)
    (pre mid post : string) :
  In level levels →
  videoCodec level = Some (pre +:+ mid +:+ post) →
  JS.toLowerCase mid = "hev" ∨ JS.toLowerCase mid = "h265" →
  hasHEVC levels = true.
Proof.
  intros Hin Hv Hm. unfold hasHEVC. apply existsb_exists.
  exists level. split; [done|]. apply orb_true_iff.
  unfold codec_includes. rewrite Hv, !includes_spec, !toLowerCase_app.
  destruct Hm as [-> | ->]; [left|right];
    by exists (JS.toLowerCase pre), (JS.toLowerCase post).
Qed.

Lemma hevc_found_in_any_case_witness :
  hasHEVC [{| videoCodec := None |};
           {| videoCodec := Some "avc1.64001f" |};
           {| videoCodec := Some "HEV1.1.6.L93.B0" |}] = true.
Proof.
  apply (hevc_found_in_any_case _ {| videoCodec := Some "HEV1.1.6.L93.B0" |}
           EmptyString "HEV" "1.1.6.L93.B0").
  - simpl. auto.
  - reflexivity.
  - left. reflexivity.
Defined.

(** The manifest handler sends at most one advisory per manifest, however
    many levels match (and none without an [onError] callback); it calls
    nothing on the engine and leaves the closure, so both counters, as it
    was. *)
Theorem manifest_advisory (c : Closure) (paused : bool) (levels : list Level) :
  calls is_onError (handle c paused (EvManifestParsed levels)).2
    = match onError (props c) with
      | Some _ => if hasHEVC levels then 1 else 0
      | None => 0
      end
  ∧ Forall (fun a => engine_of a = None) (handle c paused (EvManifestParsed levels)).2
  ∧ (handle c paused (EvManifestParsed levels)).1 = c.
Proof.
  cbn [handle fst snd]. unfold on_MANIFEST_PARSED, call_onError.
  destruct levels as [|l levels].
  - cbn [length Nat.ltb Nat.leb]. change (hasHEVC []) with false.
    destruct (onError (props c)), (autoPlay (props c)); repeat split;
      repeat constructor.
  - cbn [length Nat.ltb Nat.leb].
    destruct (hasHEVC (l :: levels)), (onError (props c)), (autoPlay (props c));
      repeat split; repeat constructor.
Qed.

(** ** Without autoplay *)

Lemma setup_no_play (w : World) (p : UseHlsPlayerProps) (env : Env) :
  Forall (fun a => is_play a = false ∧ is_onAutoPlayPrevented a = false)
    (setup w p env).2.
Proof.
  unfold setup, call_onError. repeat case_match; simpl; repeat constructor.
Qed.

Lemma run_cleanup_no_play (w : World) :
  Forall (fun a => is_play a = false ∧ is_onAutoPlayPrevented a = false)
    (run_cleanup w).2.
Proof.
  unfold run_cleanup. simpl. repeat case_match; repeat constructor.
Qed.

(** Without autoplay the handlers of a closure never call [video.play()]
    and never call [onAutoPlayPrevented]. *)
Lemma handle_no_play (c : Closure) (paused : bool) (ev : EngineEvent) :
  autoPlay (props c) = false →
  Forall (fun a => is_play a = false ∧ is_onAutoPlayPrevented a = false)
    (handle c paused ev).2.
Proof.
  intros Ha. destruct ev as [s|l|d]; cbn [handle snd].
  - unfold on_FRAG_LOADED. rewrite Ha. constructor.
  - unfold on_MANIFEST_PARSED, call_onError. rewrite Ha.
    repeat case_match; simpl; repeat constructor.
  - unfold on_ERROR, call_onError. cbv zeta.
    destruct (fatal d); [|repeat constructor].
    destruct (type d); cbn [snd];
      try destruct (S (networkErrorRetries c) <=? MAX_RETRIES);
      try destruct (S (mediaErrorRetries c) <=? MAX_RETRIES);
      destruct (onError (props c)); simpl; repeat constructor.
Qed.

Lemma plays_none (h : nat) (acts : list Action) :
  Forall (fun a => is_play a = false ∧ is_onAutoPlayPrevented a = false) acts →
  plays h acts = [].
Proof.
  induction 1 as [|a acts [Ha _] _ IH]; [done|].
  unfold plays in *. destruct a; simpl in *; try exact IH. discriminate.
Qed.

Lemma step_without_autoplay (w : World) (i : Input) :
  quiet_world w →
  (∀ p env, i = RunEffect p env → autoPlay p = false) →
  quiet_world (step w i).1 ∧
  Forall (fun a => is_play a = false ∧ is_onAutoPlayPrevented a = false)
    (step w i).2.
Proof.
  intros [Hq Hp] Hi. destruct i as [p env| |h paused ev|j o]; cbn [step].
  - unfold run_effect.
    pose proof (run_cleanup_no_play w) as H1.
    unfold run_cleanup in *. cbn [fst snd] in *.
    match goal with |- context [setup ?w0 p env] =>
      pose proof (setup_no_play w0 p env) as H2;
      pose proof (setup_closures w0 p env) as Hcl;
      assert (pending (setup w0 p env).1 = []) as Hpe
    end.
    { unfold setup. repeat case_match; exact Hp. }
    destruct (setup _ p env) as [w2 a2]. cbn [fst snd] in *.
    split; [|by apply Forall_app].
    split; [|done]. intros h c Hc.
    destruct Hcl as [[Hcl _]|(v & Hcl & _)]; rewrite Hcl in Hc; cbn [closures] in Hc.
    + by eapply Hq.
    + destruct (decide (fresh w = h)) as [<-|Hne].
      * rewrite lookup_insert_eq in Hc. inversion Hc; subst. cbn [props].
        by eapply Hi.
      * rewrite lookup_insert_ne in Hc by done. by eapply Hq.
  - split; [done|]. apply run_cleanup_no_play.
  - unfold emit. destruct (closures w !! h) as [c|] eqn:Hc; [|by split].
    pose proof (handle_no_play c paused ev (Hq _ _ Hc)) as Hn.
    pose proof (handle_fields c paused ev) as (Hpr & _ & _).
    destruct (handle c paused ev) as [c' acts]. cbn [fst snd] in *.
    split; [|done]. split.
    + intros h' c0 H0. cbn [closures] in H0.
      destruct (decide (h = h')) as [<-|Hne].
      * rewrite lookup_insert_eq in H0. inversion H0; subst.
        rewrite Hpr. by eapply Hq.
      * rewrite lookup_insert_ne in H0 by done. by eapply Hq.
    + cbn [pending]. by rewrite Hp, (plays_none h acts Hn).
  - unfold settle. rewrite Hp. by split.
Qed.

(** When every run of the effect has [autoPlay] false, the hook never
    calls [video.play()] and never calls [onAutoPlayPrevented], whatever
    the engines report, and no play request is ever pending. *)
Theorem no_autoplay_no_play (ins : list Input) :
  (∀ p env, RunEffect p env ∈ ins → autoPlay p = false) →
  Forall (fun a => is_play a = false ∧ is_onAutoPlayPrevented a = false)
    (run init ins).2
  ∧ pending (run init ins).1 = [].
Proof.
  assert (∀ ins w, quiet_world w →
            (∀ p env, RunEffect p env ∈ ins → autoPlay p = false) →
            Forall (fun a => is_play a = false ∧ is_onAutoPlayPrevented a = false)
              (run w ins).2
            ∧ quiet_world (run w ins).1) as Hgen.
  { clear ins. induction ins as [|i ins IH]; intros w Hq Hi; [by split|].
    rewrite run_cons. cbn [fst snd].
    destruct (step_without_autoplay w i Hq) as [Hq1 H1].
    { intros p env ->. apply (Hi p env). by left. }
    destruct (IH _ Hq1) as [H2 Hq2].
    { intros p env Hin. apply (Hi p env). by right. }
    split; [by apply Forall_app|done]. }
  intros Hi. destruct (Hgen ins init) as [H1 [_ H2]]; [|done|done].
  split; [|done]. intros h c Hc. simpl in Hc. by rewrite lookup_empty in Hc.
Qed.

Lemma no_autoplay_no_play_witness :
  Forall (fun a => is_play a = false ∧ is_onAutoPlayPrevented a = false)
    (run init [RunEffect Examples.props_manual Examples.chrome;
               Emit 0 true (EvManifestParsed [Examples.hvc1_level]);
               Emit 0 true (EvFragLoaded 0);
               Settle 0 (Some "NotAllowedError")]).2.
Proof.
  apply (no_autoplay_no_play
           [RunEffect Examples.props_manual Examples.chrome;
            Emit 0 true (EvManifestParsed [Examples.hvc1_level]);
            Emit 0 true (EvFragLoaded 0);
            Settle 0 (Some "NotAllowedError")]).
  intros p env Hin.
  apply elem_of_cons in Hin as [Heq|Hin]; [by inversion Heq|].
  apply elem_of_cons in Hin as [Heq|Hin]; [discriminate|].
  apply elem_of_cons in Hin as [Heq|Hin]; [discriminate|].
  apply elem_of_cons in Hin as [Heq|Hin]; [discriminate|].
  by apply elem_of_nil in Hin.
Defined.

(** ** Nothing is left running *)

(** Along a run, the engines alive stay within what the kept cleanup
    function will destroy. *)
Lemma run_live (w : World) (ins : list Input) (L : gset nat) :
  L ⊆ cleanup_target w →
  live_after L (run w ins).2 ⊆ cleanup_target (run w ins).1.
Proof.
  revert w L. induction ins as [|i ins IH]; intros w L HL; [done|].
  rewrite run_cons. cbn [fst snd]. rewrite live_after_app.
  apply IH. by apply step_order.
Qed.

Lemma run_snoc (w : World) (ins : list Input) (i : Input) :
  run w (ins ++ [i]) =
  ((step (run w ins).1 i).1, (run w ins).2 ++ (step (run w ins).1 i).2).
Proof.
  revert w. induction ins as [|j ins IH]; intros w.
  - simpl. destruct (step w i). by rewrite app_nil_r.
  - rewrite <- app_comm_cons, !run_cons, IH. cbn [fst snd].
    by rewrite app_assoc.
Qed.

(** After any history, once React runs the cleanup function (the component
    is unmounted), no engine built by the hook is left alive. *)
Theorem unmount_releases (ins : list Input) :
  live_after ∅ (run init (ins ++ [Unmount])).2 = ∅.
Proof.
  pose proof (run_live init ins ∅ (empty_subseteq _)) as HL.
  rewrite run_snoc. cbn [snd step]. rewrite live_after_app.
  by apply run_cleanup_order.
Qed.

(** After any history, a run of the effect that stops at the guard (the
    ref holds no element, or the URL is empty) still releases the engine of
    the previous run, through the cleanup function: no engine is left
    alive, although the body itself did nothing. *)
Theorem guard_releases (ins : list Input) (p : UseHlsPlayerProps) (env : Env) :
  current (videoRef p) = None ∨ src p = EmptyString →
  live_after ∅ (run init (ins ++ [RunEffect p env])).2 = ∅.
Proof.
  intros Hg.
  pose proof (run_live init ins ∅ (empty_subseteq _)) as HL.
  rewrite run_snoc. cbn [snd step]. rewrite live_after_app.
  unfold run_effect.
  destruct (run_cleanup_order _ _ HL) as [_ H2].
  destruct (run_cleanup (run init ins).1) as [w1 a1]. cbn [fst snd] in *.
  assert ((setup w1 p env).2 = []) as Hs.
  { unfold setup. destruct Hg as [-> | ->]; [done|].
    by destruct (current (videoRef p)). }
  destruct (setup w1 p env) as [w2 a2]. cbn [snd] in *. subst a2.
  by rewrite app_nil_r.
Qed.

Lemma guard_releases_witness :
  live_after ∅
    (run init ([RunEffect Examples.props_a Examples.chrome;
                Emit 0 true (EvFragLoaded 0)] ++
               [RunEffect Examples.props_cleared Examples.chrome])).2 = ∅.
Proof.
  exact (guard_releases
           [RunEffect Examples.props_a Examples.chrome;
            Emit 0 true (EvFragLoaded 0)]
           Examples.props_cleared Examples.chrome (or_intror eq_refl)).
Defined.

(** ** The previous engine is destroyed twice *)

(** In every reachable world the engine the kept cleanup function would
    destroy is the one in [hlsRef]. *)
Lemma cleanup_in_ref (ins : list Input) (h : nat) :
  cleanup (run init ins).1 = Some (Some h) → hlsRef (run init ins).1 = Some h.
Proof.
  assert (∀ ins w, (∀ h, cleanup w = Some (Some h) → hlsRef w = Some h) →
                   ∀ h, cleanup (run w ins).1 = Some (Some h) →
                        hlsRef (run w ins).1 = Some h) as Hgen.
  { clear. induction ins as [|i ins IH]; intros w Hw; [exact Hw|].
    rewrite run_cons. cbn [fst]. apply IH. clear IH.
    destruct i as [p env| |h' paused ev|j o]; cbn [step].
    - unfold run_effect, run_cleanup, setup. cbn [fst snd hlsRef]. intros h.
      destruct (current (videoRef p)); [|discriminate].
      destruct (JS.truthy (src p)); cbn [negb]; [|discriminate].
      destruct (Hls_isSupported env), (JS.truthy (canPlayType env));
        cbn [negb fst cleanup hlsRef]; congruence.
    - unfold run_cleanup. cbn [fst cleanup]. discriminate.
    - unfold emit. destruct (closures w !! h'); [|exact Hw].
      destruct (handle _ paused ev). exact Hw.
    - unfold settle. destruct (pending w !! j) as [[? ?]|]; exact Hw. }
  apply Hgen. discriminate.
Qed.

(** When the effect runs again after a run that built engine [h], with an
    element and a non-empty URL, [h.destroy()] is called twice before
    anything else: once by the cleanup function and once through
    [hlsRef.current]; only then is the browser asked what it can play. *)
Theorem previous_destroyed_twice (ins : list Input) (p : UseHlsPlayerProps)
    (env : Env) (h v : nat) :
  cleanup (run init ins).1 = Some (Some h) →
  current (videoRef p) = Some v →
  src p ≠ EmptyString →
  take 4 (step (run init ins).1 (RunEffect p env)).2 =
    [HlsDestroy h; HlsDestroy h; VideoCanPlayType v mime_hls; HlsIsSupported].
Proof.
  intros Hc Hv Hs. pose proof (cleanup_in_ref ins h Hc) as Hr.
  apply truthy_nonempty in Hs.
  cbn [step]. unfold run_effect, run_cleanup, setup. cbn [fst snd hlsRef].
  rewrite Hc, Hr, Hv, Hs. cbn [negb].
  destruct (Hls_isSupported env), (JS.truthy (canPlayType env)); reflexivity.
Qed.

Lemma previous_destroyed_twice_witness :
  take 4 (step (run init [RunEffect Examples.props_a Examples.chrome]).1
            (RunEffect Examples.props_b Examples.chrome)).2 =
  [HlsDestroy 0; HlsDestroy 0; VideoCanPlayType 7 mime_hls; HlsIsSupported].
Proof.
  assert (src Examples.props_b ≠ EmptyString) as Hs by discriminate.
  exact (previous_destroyed_twice
           [RunEffect Examples.props_a Examples.chrome]
           Examples.props_b Examples.chrome 0 7 eq_refl eq_refl Hs).
Defined.

(** ** Autoplay notifications *)

Lemma reporting_app (l1 l2 : list (nat * CatchHandler)) :
  reporting (l1 ++ l2) = reporting l1 + reporting l2.
Proof. unfold reporting. by rewrite List.filter_app, length_app. Qed.

Lemma reporting_delete (l : list (nat * CatchHandler)) (j : nat) (q : nat * CatchHandler) :
  l !! j = Some q →
  reporting (delete j l) + (if reports q then 1 else 0) = reporting l.
Proof.
  revert j. induction l as [|x l IH]; intros j Hj; [done|].
  destruct j as [|j]; simpl in Hj.
  - inversion Hj; subst. unfold reporting. simpl.
    destruct (reports q); simpl; lia.
  - specialize (IH j Hj). unfold reporting in *. simpl.
    destruct (reports x); simpl; lia.
Qed.

(** The handlers themselves never call [onAutoPlayPrevented]; only the
    manifest handler leaves a play request that reports, and at most one. *)
Lemma handle_reporting (c : Closure) (h : nat) (paused : bool) (ev : EngineEvent) :
  calls is_onAutoPlayPrevented (handle c paused ev).2 = 0
  ∧ reporting (plays h (handle c paused ev).2)
    ≤ (if is_manifest (Emit h paused ev) then 1 else 0).
Proof.
  destruct ev as [s|l|d]; cbn [handle snd is_manifest].
  - unfold on_FRAG_LOADED. case_match; split; cbn; lia.
  - unfold on_MANIFEST_PARSED, call_onError.
    repeat case_match; split; cbn; lia.
  - rewrite plays_on_ERROR. split; [|cbn; lia].
    unfold on_ERROR, call_onError. cbv zeta.
    destruct (fatal d); [|reflexivity].
    destruct (type d); cbn [snd];
      try destruct (S (networkErrorRetries c) <=? MAX_RETRIES);
      try destruct (S (mediaErrorRetries c) <=? MAX_RETRIES);
      destruct (onError (props c)); reflexivity.
Qed.

Lemma no_play_no_notification (tr : list Action) :
  Forall (fun a => is_play a = false ∧ is_onAutoPlayPrevented a = false) tr →
  calls is_onAutoPlayPrevented tr = 0.
Proof.
  intros H. apply calls_none. eapply Forall_impl; [exact H|]. by intros a [_ Ha].
Qed.

Lemma setup_pending (w : World) (p : UseHlsPlayerProps) (env : Env) :
  pending (setup w p env).1 = pending w.
Proof. unfold setup. repeat case_match; reflexivity. Qed.

Lemma step_reporting (w : World) (i : Input) :
  calls is_onAutoPlayPrevented (step w i).2 + reporting (pending (step w i).1)
  ≤ reporting (pending w) + (if is_manifest i then 1 else 0).
Proof.
  destruct i as [p env| |h paused ev|j o]; cbn [step].
  - unfold run_effect.
    pose proof (run_cleanup_no_play w) as H1.
    unfold run_cleanup in *. cbn [fst snd] in *.
    match goal with |- context [setup ?w0 p env] =>
      pose proof (setup_no_play w0 p env) as H2;
      pose proof (setup_pending w0 p env) as Hp
    end.
    destruct (setup _ p env) as [w2 a2]. cbn [fst snd pending] in *.
    rewrite calls_app, Hp, !no_play_no_notification by done. lia.
  - rewrite (no_play_no_notification _ (run_cleanup_no_play w)).
    unfold run_cleanup. cbn [fst pending]. lia.
  - unfold emit. destruct (closures w !! h) as [c|].
    + pose proof (handle_reporting c h paused ev) as [H1 H2].
      destruct (handle c paused ev) as [c' acts]. cbn [fst snd pending] in *.
      rewrite reporting_app. lia.
    + cbn [fst snd]. change (calls is_onAutoPlayPrevented []) with 0. lia.
  - unfold settle. destruct (pending w !! j) as [[h' k']|] eqn:Hj.
    + cbn [fst snd pending is_manifest].
      pose proof (reporting_delete _ _ _ Hj) as Hd.
      assert (calls is_onAutoPlayPrevented
                match o, closures w !! h' with
                | Some err, Some c => on_play_rejected c k' err
                | _, _ => []
                end ≤ (if reports (h', k') then 1 else 0)) as Hc.
      { destruct o as [err|]; [|cbn; lia].
        destruct (closures w !! h') as [c|]; [|cbn; lia].
        unfold on_play_rejected, call_onAutoPlayPrevented.
        destruct k'; [cbn; lia|].
        destruct (onAutoPlayPrevented (props c)); cbn; lia. }
      lia.
    + cbn [fst snd]. change (calls is_onAutoPlayPrevented []) with 0. lia.
Qed.

(** Over any history, [onAutoPlayPrevented] is called at most once per
    manifest-parsed event delivered: each such event leaves at most one play
    request that reports, a request reports at most once, and the play
    requests of the fragment handler never report. *)
Theorem notifications_bounded (ins : list Input) :
  calls is_onAutoPlayPrevented (run init ins).2
  + reporting (pending (run init ins).1)
  ≤ length (List.filter is_manifest ins).
Proof.
  assert (∀ ins w,
            calls is_onAutoPlayPrevented (run w ins).2
            + reporting (pending (run w ins).1)
            ≤ reporting (pending w) + length (List.filter is_manifest ins)) as Hgen.
  { clear. induction ins as [|i ins IH]; intros w; [cbn; lia|].
    rewrite run_cons. cbn [fst snd]. rewrite calls_app.
    pose proof (step_reporting w i). specialize (IH (step w i).1).
    simpl. destruct (is_manifest i); simpl; lia. }
  apply (Hgen ins init).
Qed.

(** ** Callbacks and messages *)

Lemma known_messages :
  known_message hevc_message ∧ known_message network_message ∧
  known_message media_message ∧ known_message unsupported_message ∧
  ∀ d, known_message (fatal_message d).
Proof. unfold known_message. repeat split; eauto 10. Qed.

Ltac each_action :=
  repeat (first [apply List.Forall_nil | apply List.Forall_cons]);
  cbn [call_in_order]; try exact I.

Lemma handle_in_order (P : UseHlsPlayerProps → Prop) (c : Closure)
    (paused : bool) (ev : EngineEvent) :
  P (props c) → Forall (call_in_order P) (handle c paused ev).2.
Proof.
  intros HP. destruct known_messages as (K1 & K2 & K3 & K4 & K5).
  destruct ev as [s|l|d]; cbn [handle snd].
  - unfold on_FRAG_LOADED. case_match; each_action.
  - unfold on_MANIFEST_PARSED, call_onError.
    destruct (onError (props c)) eqn:Hf; repeat case_match;
      simpl; each_action; eauto.
  - unfold on_ERROR, call_onError. cbv zeta.
    destruct (fatal d); [|each_action].
    destruct (type d); cbn [snd];
      try destruct (S (networkErrorRetries c) <=? MAX_RETRIES);
      try destruct (S (mediaErrorRetries c) <=? MAX_RETRIES);
      destruct (onError (props c)) eqn:Hf; simpl; each_action; eauto.
Qed.

Lemma setup_in_order (P : UseHlsPlayerProps → Prop) (w : World)
    (p : UseHlsPlayerProps) (env : Env) :
  P p → Forall (call_in_order P) (setup w p env).2.
Proof.
  intros HP. destruct known_messages as (K1 & K2 & K3 & K4 & K5).
  unfold setup, call_onError.
  destruct (onError p) eqn:Hf; repeat case_match;
    simpl; each_action; eauto.
Qed.

Lemma step_in_order (P : UseHlsPlayerProps → Prop) (w : World) (i : Input) :
  (∀ h c, closures w !! h = Some c → P (props c)) →
  (∀ p env, i = RunEffect p env → P p) →
  Forall (call_in_order P) (step w i).2
  ∧ ∀ h c, closures (step w i).1 !! h = Some c → P (props c).
Proof.
  intros Hw Hi. destruct i as [p env| |h paused ev|j o]; cbn [step].
  - unfold run_effect, run_cleanup. cbn [fst snd].
    match goal with |- context [setup ?w0 p env] =>
      pose proof (setup_in_order P w0 p env (Hi p env eq_refl)) as H2;
      pose proof (setup_closures w0 p env) as Hcl
    end.
    destruct (setup _ p env) as [w2 a2]. cbn [fst snd] in *. split.
    + apply Forall_app. split; [|done]. repeat case_match; each_action.
    + intros h c Hc.
      destruct Hcl as [[Hcl _]|(v & Hcl & _)]; rewrite Hcl in Hc; cbn [closures] in Hc.
      * by eapply Hw.
      * destruct (decide (fresh w = h)) as [<-|Hne].
        -- rewrite lookup_insert_eq in Hc. inversion Hc; subst. cbn [props].
           by eapply Hi.
        -- rewrite lookup_insert_ne in Hc by done. by eapply Hw.
  - unfold run_cleanup. cbn [fst snd]. split; [|exact Hw].
    repeat case_match; each_action.
  - unfold emit. destruct (closures w !! h) as [c|] eqn:Hc; [|by split].
    pose proof (handle_in_order P c paused ev (Hw _ _ Hc)) as Hn.
    pose proof (handle_fields c paused ev) as (Hpr & _ & _).
    destruct (handle c paused ev) as [c' acts]. cbn [fst snd] in *.
    split; [done|]. intros h' c0 H0. cbn [closures] in H0.
    destruct (decide (h = h')) as [<-|Hne].
    + rewrite lookup_insert_eq in H0. inversion H0; subst.
      rewrite Hpr. by eapply Hw.
    + rewrite lookup_insert_ne in H0 by done. by eapply Hw.
  - unfold settle. destruct (pending w !! j) as [[h' k']|]; [|by split].
    cbn [fst snd closures]. split; [|exact Hw].
    destruct o as [err|]; [|constructor].
    destruct (closures w !! h') as [c|] eqn:Hc; [|constructor].
    unfold on_play_rejected, call_onAutoPlayPrevented.
    destruct k'; [each_action|].
    destruct (onAutoPlayPrevented (props c)) eqn:Hf; each_action.
    exists (props c). split; [by eapply Hw|done].
Qed.

(** Over any history, every call of [onError] carries one of the five
    messages of the hook and goes to the [onError] of props some run of the
    effect in that history was given; every call of [onAutoPlayPrevented]
    goes to the [onAutoPlayPrevented] of such props. *)
Theorem callbacks_in_order (ins : list Input) :
  Forall (call_in_order (fun p => ∃ env, RunEffect p env ∈ ins)) (run init ins).2.
Proof.
  assert (∀ (P : UseHlsPlayerProps → Prop) ins w,
            (∀ h c, closures w !! h = Some c → P (props c)) →
            (∀ p env, RunEffect p env ∈ ins → P p) →
            Forall (call_in_order P) (run w ins).2) as Hgen.
  { clear. intros P. induction ins as [|i ins IH]; intros w Hw Hi; [constructor|].
    rewrite run_cons. cbn [fst snd].
    destruct (step_in_order P w i Hw) as [H1 Hw1].
    { intros p env ->. apply (Hi p env). by left. }
    apply Forall_app. split; [done|]. apply IH; [done|].
    intros p env Hin. apply (Hi p env). by right. }
  apply Hgen.
  - intros h c Hc. simpl in Hc. by rewrite lookup_empty in Hc.
  - intros p env Hin. by exists env.
Qed.
